(** * metlink-pid: the Page codec and the message frames of [src/index.mjs]

    A shallow embedding of the JavaScript classes [PageAnimate], [Page],
    [PingMessage] and [ResponseMessage], followed by the properties of the
    character codec, the page grammar, the page byte codec and the message
    framing.

    Conventions of the embedding:
    - a JavaScript string is the list of its UTF-16 code units ([jsstring]);
      a one-unit string used as a key or as a character is its code unit;
    - a number is an integer-valued double ([Int z], with [z] its exact
      value) or [Infinity]; [undefined] is [None];
    - an object used as a table is a [gmap];
    - a function that can throw returns a [completion]. *)

From Stdlib Require Import ZArith NArith List Ascii String Lia Bool ZifyBool.
From stdpp Require Import base option list gmap strings.

(** ** The JavaScript built-ins the program uses *)

Module JS.

Abbreviation jsstring := (list N).

(** An ASCII literal as a JavaScript string. *)
Definition str (s : string) : jsstring :=
  N_of_ascii <$> list_ascii_of_string s.

Inductive number :=
| Int (z : Z)
| Infinity.

Abbreviation value := (option number).

Inductive Error :=
| RangeError (message : jsstring)
| ReferenceError (message : jsstring)
| TypeError (message : jsstring).

Inductive completion (A : Type) :=
| Return (a : A)
| Throw (e : Error).

Arguments Return {A} a.
Arguments Throw {A} e.

#[global] Instance completion_ret : MRet completion := λ A a, Return a.

#[global] Instance completion_bind : MBind completion :=
  λ A B f m, match m with Return a => f a | Throw e => Throw e end.

Definition returns {A} (m : completion A) : bool :=
  match m with Return _ => true | Throw _ => false end.

(** [Array.prototype.map] with a callback that can throw. *)
Fixpoint Array_map {A B} (f : A → completion B) (l : list A) : completion (list B) :=
  match l with
  | [] => Return []
  | x :: l' => y ← f x; ys ← Array_map f l'; Return (y :: ys)
  end.

(** *** Numbers *)

(** The double nearest to a non-negative integer (ties to even). *)
Definition to_double (v : Z) : number :=
  if (v <? 2 ^ 53)%Z then Int v
  else
    let e := (Z.log2 v - 52)%Z in
    let q := (v / 2 ^ e)%Z in
    let r := (v mod 2 ^ e)%Z in
    let half := (2 ^ (e - 1))%Z in
    let q' := if (r <? half)%Z then q
              else if (half <? r)%Z then (q + 1)%Z
              else if Z.even q then q else (q + 1)%Z in
    if (2 ^ 1024 <=? q' * 2 ^ e)%Z then Infinity else Int (q' * 2 ^ e).

Definition is_digit (c : N) : bool := (48 <=? c)%N && (c <=? 57)%N.

(** [parseInt(s)] for [s] a run of decimal digits, which is all that
    [Page.fromStr] passes to it (a non-empty capture of [\d*]). *)
Definition parseInt (s : jsstring) : number :=
  to_double (foldl (λ acc c, 10 * acc + (Z.of_N c - 48))%Z 0%Z s).

Definition digit_char (d : Z) : N :=
  Z.to_N (if (d <? 10)%Z then 48 + d else 87 + d)%Z.

Fixpoint to_digits (fuel : nat) (radix : Z) (v : Z) (acc : jsstring) : jsstring :=
  match fuel with
  | O => acc
  | S fuel' =>
      let acc' := digit_char (v mod radix) :: acc in
      if (v <? radix)%Z then acc' else to_digits fuel' radix (v / radix) acc'
  end.

(** The digits of a non-negative integer; [Z.log2 v + 1] digits are enough
    in every radix from 2 up. *)
Definition digits (radix : Z) (v : Z) : jsstring :=
  to_digits (S (Z.to_nat (Z.log2 v))) radix v [].

(** [Number.prototype.toString(radix)] on an integer. In radix 10 the
    exponent notation that starts at 10^21 is outside the model ([None]). *)
Definition Number_toString (radix : Z) (n : number) : option jsstring :=
  match n with
  | Infinity => Some (str "Infinity")
  | Int z =>
      if ((radix =? 10)%Z && (10 ^ 21 <=? Z.abs z)%Z) then None
      else Some ((if (z <? 0)%Z then str "-" else []) ++ digits radix (Z.abs z))
  end.

(** [x.toString(16)] where [x] was read from an array: reading a property
    of [undefined] is a TypeError. *)
Definition toString16 (x : option Z) : completion jsstring :=
  match x with
  | Some z => Return (default [] (Number_toString 16 (Int z)))
  | None => Throw (TypeError (str "Cannot read properties of undefined (reading 'toString')"))
  end.

(** [this] in the constructor of a derived class ([class C extends B]): it
    is bound by the call of [super()], and reading or assigning through it
    before that call throws. [bound] is the object that [super()] has
    returned, if it has been called. *)
Definition this_not_bound : Error :=
  ReferenceError
    (str "Must call super constructor in derived class before accessing 'this' or returning from derived constructor").

Definition derived_this {A} (bound : option A) : completion A :=
  match bound with
  | Some this => Return this
  | None => Throw this_not_bound
  end.

(** [Buffer.from(array)]: every entry is converted to a byte (modulo 256;
    [undefined] and infinities become 0). *)
Definition to_uint8 (v : value) : Z :=
  match v with
  | Some (Int z) => (z mod 256)%Z
  | Some Infinity => 0%Z
  | None => 0%Z
  end.

Definition Buffer_from (array : list value) : list Z := to_uint8 <$> array.

(** [v > n]: a comparison with [undefined] is false. *)
Definition gt (v : value) (n : Z) : bool :=
  match v with
  | Some (Int z) => (n <? z)%Z
  | Some Infinity => true
  | None => false
  end.

(** A [Set] object has a [size]; its [length] property is [undefined]. *)
Definition Set_length (s : gset jsstring) : value := None.

(** Truthiness of a string or [undefined]: only a non-empty string is truthy. *)
Definition truthy (s : option jsstring) : bool :=
  match s with
  | Some (_ :: _) => true
  | _ => false
  end.

(** *** Strings *)

Definition is_lower (c : N) : bool := (97 <=? c)%N && (c <=? 122)%N.
Definition is_upper (c : N) : bool := (65 <=? c)%N && (c <=? 90)%N.
Definition is_letter (c : N) : bool := is_upper c || is_lower c.

(** [String.prototype.toUpperCase] on ASCII text (the program applies it to
    the capture of [[A-Za-z]?] and to the literals N, V and H). *)
Definition toUpperCase (s : jsstring) : jsstring :=
  (λ c, if is_lower c then (c - 32)%N else c) <$> s.

(** [e.charCodeAt(0)] of a non-empty string (the program calls it on the
    one-unit pieces of a split; the NaN of an empty string is left out). *)
Definition charCodeAt0 (e : jsstring) : Z :=
  match e with
  | c :: _ => Z.of_N c
  | [] => 0%Z
  end.

(** The own enumerable keys of an object. Their order is immaterial where
    the program uses them: it only builds the inverse of an injective table. *)
Definition Object_keys {K V} `{Countable K} (o : gmap K V) : list K :=
  (map_to_list o).*1.

(** An object literal [{ ...base, k1: v1, k2: v2 }]: later entries win. *)
Definition object_literal {K V} `{Countable K} (base : gmap K V) (entries : list (K * V)) : gmap K V :=
  foldl (λ acc kv, <[kv.1 := kv.2]> acc) base entries.

Fixpoint is_prefix (p s : jsstring) : bool :=
  match p, s with
  | [], _ => true
  | a :: p', b :: s' => (a =? b)%N && is_prefix p' s'
  | _ :: _, [] => false
  end.

(** [s.replace(pat, rep)] with a string pattern: only the first occurrence
    is replaced ([rep] holds no [$] here). *)
Fixpoint String_replace (pat rep s : jsstring) : jsstring :=
  if is_prefix pat s then rep ++ drop (length pat) s
  else match s with
       | [] => []
       | c :: s' => c :: String_replace pat rep s'
       end.

(** [s.split(sep)]. [skip] counts the units of a separator still to pass,
    [cur] is the piece being read. An empty separator splits into units. *)
Fixpoint split_from (sep : jsstring) (skip : nat) (cur s : jsstring) : list jsstring :=
  match s with
  | [] => [cur]
  | c :: s' =>
      match skip with
      | S n => split_from sep n cur s'
      | O => if is_prefix sep s
             then cur :: split_from sep (length sep - 1) [] s'
             else split_from sep 0 (cur ++ [c]) s'
      end
  end.

Definition String_split (sep s : jsstring) : list jsstring :=
  match sep with
  | [] => (λ c, [c]) <$> s
  | _ => split_from sep 0 [] s
  end.

(** The longest prefix whose entries satisfy [p], and what follows it. *)
Fixpoint take_while {A} (p : A → bool) (l : list A) : list A :=
  match l with
  | x :: l' => if p x then x :: take_while p l' else []
  | [] => []
  end.

Fixpoint drop_while {A} (p : A → bool) (l : list A) : list A :=
  match l with
  | x :: l' => if p x then drop_while p l' else l
  | [] => []
  end.

(** [s.includes(pat)] *)
Fixpoint String_includes (pat s : jsstring) : bool :=
  is_prefix pat s
  || match s with
     | [] => false
     | _ :: s' => String_includes pat s'
     end.

(** [array.join(sep)] on an array of strings: the entries with [sep]
    between them. *)
Fixpoint Array_join {A} (sep : list A) (l : list (list A)) : list A :=
  match l with
  | [] => []
  | [x] => x
  | x :: l' => x ++ sep ++ Array_join sep l'
  end.

End JS.

(** ** Regular expressions

    The fragment of the ECMAScript pattern language the program uses, with
    its backtracking matcher: quantifiers are greedy and give way only when
    the rest of the pattern fails. *)

Module RegExp.
Import JS.

Inductive regex :=
| Bol                                  (* ^ (no m flag: start of input) *)
| Eol                                  (* $ (no m flag: end of input) *)
| Chr (c : N)                          (* a literal unit *)
| Class (p : N → bool)                 (* one unit of a class *)
| Seq (r1 r2 : regex)
| Opt (r : regex)                      (* r? *)
| Star (p : N → bool)                  (* c* for a class c *)
| Plus (p : N → bool)                  (* c+ for a class c *)
| Group (name : string) (r : regex).   (* capturing group *)

Abbreviation captures := (gmap string jsstring).

Section matcher.
Context {A : Type}.

Fixpoint star (p : N → bool) (k : jsstring → captures → option A)
    (s : jsstring) (e : captures) : option A :=
  match s with
  | c :: s' =>
      if p c then
        match star p k s' e with
        | Some a => Some a
        | None => k s e
        end
      else k s e
  | [] => k s e
  end.

(** [run input r k s e] matches [r] at the suffix [s] of [input] and hands
    what is left to the continuation [k]; [None] makes the caller
    backtrack. *)
Fixpoint run (input : jsstring) (r : regex) (k : jsstring → captures → option A)
    (s : jsstring) (e : captures) : option A :=
  match r with
  | Bol => if (length s =? length input)%nat then k s e else None
  | Eol => match s with [] => k s e | _ :: _ => None end
  | Chr c =>
      match s with
      | c' :: s' => if (c' =? c)%N then k s' e else None
      | [] => None
      end
  | Class p =>
      match s with
      | c' :: s' => if p c' then k s' e else None
      | [] => None
      end
  | Seq r1 r2 => run input r1 (run input r2 k) s e
  | Opt r' =>
      match run input r' k s e with
      | Some a => Some a
      | None => k s e
      end
  | Star p => star p k s e
  | Plus p =>
      match s with
      | c' :: s' => if p c' then star p k s' e else None
      | [] => None
      end
  | Group name r' =>
      run input r' (λ s' e', k s' (<[name := take (length s - length s') s]> e')) s e
  end.

End matcher.

Record match_result := {
  index : nat;
  matched : jsstring;                  (* match[0] *)
  groups : captures;
}.

(** The match of [r] that starts at the suffix [s] of [input], if any. *)
Definition match_at (input : jsstring) (r : regex) (s : jsstring) : option match_result :=
  run input r
    (λ s' e, Some {| index := length input - length s;
                     matched := take (length s - length s') s;
                     groups := e |})
    s ∅.

(** A pattern without the g flag is tried at every start position, from the
    left. *)
Fixpoint search (input : jsstring) (r : regex) (s : jsstring) : option match_result :=
  match match_at input r s with
  | Some m => Some m
  | None =>
      match s with
      | _ :: s' => search input r s'
      | [] => None
      end
  end.

(** [input.match(r)]: the first match, or [None] for [null]. *)
Definition Symbol_match (input : jsstring) (r : regex) : option match_result :=
  search input r input.

(** [input.replace(r, rep)] for a pattern without the g flag ([rep] holds no [$]). *)
Definition Symbol_replace (input : jsstring) (r : regex) (rep : jsstring) : jsstring :=
  match Symbol_match input r with
  | Some m => take (index m) input ++ rep ++ drop (index m + length (matched m)) input
  | None => input
  end.

End RegExp.

(** ** [class PageAnimate] *)

Module PageAnimate.
Import JS.

Record t := Build { animate : jsstring }.

Definition new (type : jsstring) : t := {| animate := toUpperCase type |}.

Definition toString (this : t) : jsstring := animate this.

Definition NONE : t := new (str "N").
Definition VSCROLL : t := new (str "V").
Definition HSCROLL : t := new (str "H").

End PageAnimate.

(** ** [class Page] *)

Module Page.
Import JS RegExp.

(** What the [#animate] field holds: the [PageAnimate] object that
    [fromStr] builds, or the key string that [fromBytes] reads from
    [_ANIMATE_DECODING]. Both answer [toString()]. *)
Inductive animate_value :=
| Obj (a : PageAnimate.t)
| Str (s : jsstring).

Definition animate_toString (a : animate_value) : jsstring :=
  match a with
  | Obj o => PageAnimate.toString o
  | Str s => s
  end.

(** The constructor stores its three arguments as they are. *)
Record t := new {
  animate : animate_value;
  delay : number;
  text : jsstring;
}.

Definition getAnimate (this : t) : animate_value := animate this.
Definition getDelay (this : t) : number := delay this.
Definition getText (this : t) : jsstring := text this.

Definition _TEXT_ENCODING : gmap jsstring Z :=
  object_literal
    (foldl (λ acc e, <[e := charCodeAt0 e]> acc) ∅
       (String_split []
          (str " !#$&'()*+,-./0123456789:;<=>?ABCDEFGHIJKLMNOPQRSTUVWXYZ\abcdefghijklmnopqrstuvwxyz")))
    [ ([0x00B7%N], 0x8F%Z);     (* MIDDLE DOT *)
      ([0x2022%N], 0xD3%Z);     (* BULLET *)
      ([0x2500%N], 0x97%Z);     (* BOX DRAWINGS LIGHT HORIZONTAL *)
      ([0x2501%N], 0xD2%Z);     (* BOX DRAWINGS HEAVY HORIZONTAL *)
      ([0x2588%N], 0x5F%Z);     (* FULL BLOCK *)
      ([0x2594%N], 0xA3%Z) ].   (* UPPER ONE EIGHTH BLOCK *)

Definition _TEXT_DECODING : gmap Z jsstring :=
  object_literal
    (foldl (λ acc e, <[_TEXT_ENCODING !!! e := e]> acc) ∅ (Object_keys _TEXT_ENCODING))
    [ (0x98%Z, [0x2500%N]);
      (0xA4%Z, [0x2594%N]);
      (0xA5%Z, [0x2594%N]) ].

Definition _ATTRS_SEP : jsstring := str "^".
Definition _RIGHT_CHAR_DECODED : jsstring := str "~".
Definition _RIGHT_CHAR_ENCODED : jsstring := str "\R".
Definition _NEWLINE_CHAR : jsstring := str "_".
Definition _NEWLINE_BYTESEQ : Z := 0x0A.

(** The pattern of [_STR_RE], flag s: at the start of the input, an
    optional non-capturing group made of the group animate (an optional
    letter of [A-Za-z]), the group delay (a greedy run of decimal digits) and
    a caret; then the group text (a greedy run of any units) up to the end
    of the input. *)
Definition _STR_RE : regex :=
  Seq Bol
    (Seq (Opt (Seq (Group "animate" (Opt (Class is_letter)))
                (Seq (Group "delay" (Star is_digit))
                     (Chr 94))))
         (Seq (Group "text" (Star (λ _, true)))
              Eol)).

Definition _ANIMATE_ENCODING : gmap jsstring Z :=
  object_literal ∅
    [ (PageAnimate.toString PageAnimate.NONE, 0x00%Z);
      (PageAnimate.toString PageAnimate.VSCROLL, 0x1D%Z);
      (PageAnimate.toString PageAnimate.HSCROLL, 0x2F%Z) ].

Definition _ANIMATE_DECODING : gmap Z jsstring :=
  foldl (λ acc e, <[_ANIMATE_ENCODING !!! e := e]> acc) ∅ (Object_keys _ANIMATE_ENCODING).

(** Omitted arguments take the defaults [PageAnimate.NONE] and [20]. *)
Definition fromStr (string : jsstring) (default_animate : option animate_value)
    (default_delay : option number) : completion t :=
  match Symbol_match string _STR_RE with
  | None => Throw (TypeError (str "Cannot read properties of null (reading 'groups')"))
  | Some match_ =>
      let animate := default (Obj PageAnimate.NONE) default_animate in
      let delay := default (Int 20) default_delay in
      let animate :=
        if truthy (groups match_ !! "animate")
        then Obj (PageAnimate.new (default [] (groups match_ !! "animate")))
        else animate in
      let delay :=
        if truthy (groups match_ !! "delay")
        then parseInt (default [] (groups match_ !! "delay"))
        else delay in
      (* the text group takes part in every match of _STR_RE *)
      Return (new animate delay (default [] (groups match_ !! "text")))
  end.

(** [None] only where the delay prints in exponent notation, which
    [Number_toString] leaves out. *)
Definition toString (this : t) : option jsstring :=
  d ← Number_toString 10 (delay this);
  Some (animate_toString (animate this) ++ d ++ _ATTRS_SEP ++ text this).

Fixpoint encodeText_loop (text : jsstring) (i : nat) (bytesOut : list value)
    (badChars : gset jsstring) : list value * gset jsstring :=
  match text with
  | [] => (bytesOut, badChars)
  | c :: rest =>
      let char := [c] in
      match _TEXT_ENCODING !! char with
      | Some b => encodeText_loop rest (S i) (<[i := Some (Int b)]> bytesOut) badChars
      | None => encodeText_loop rest (S i) bytesOut ({[char]} ∪ badChars)
      end
  end.

(** The slots of [bytesOut] that are never assigned stay holes ([None]). *)
Definition encodeText (text : jsstring) : completion (list value) :=
  let bytesOut := replicate (length text) None in
  let badChars := ∅ in
  let '(bytesOut, badChars) := encodeText_loop text 0 bytesOut badChars in
  if gt (Set_length badChars) 0
  then Throw (TypeError (str "badChars.entries(...).join is not a function"))
  else Return bytesOut.

Definition decodeText (bytes : list Z) : jsstring :=
  foldl (λ text byte,
           match _TEXT_DECODING !! byte with
           | Some c => text ++ c
           | None => text ++ [0xFFFD%N]
           end) [] bytes.

(** [/^(_+)/] *)
Definition leading_newlines_re : regex := Seq Bol (Group "1" (Plus (λ c, (c =? 95)%N))).

Definition toBytes (this : t) : completion (list Z) :=
  let animateByte := _ANIMATE_ENCODING !! animate_toString (animate this) in
  let offsetByte :=
    default 0%nat ((λ m, length (matched m)) <$> Symbol_match (text this) leading_newlines_re) in
  let delayByte := delay this in
  lines ← Array_map
            (λ line, encodeText (String_replace _RIGHT_CHAR_DECODED _RIGHT_CHAR_ENCODED line))
            (String_split _NEWLINE_CHAR (drop offsetByte (text this)));
  let textBytes := drop 1 (foldl (λ acc e, acc ++ [Some (Int 0x0A)] ++ e) [] lines) in
  Return (Buffer_from
            ([Int <$> animateByte; Some (Int (Z.of_nat offsetByte)); Some delayByte; Some (Int 0x00)]
             ++ textBytes)).

(** [/ +$/] *)
Definition trailing_spaces_re : regex := Seq (Plus (λ c, (c =? 32)%N)) Eol.

(** [bytes] is a Buffer: every entry is a byte. The guard on the length
    is the failing pattern match; the [while] loop that pops trailing
    newline bytes is [drop_while] on the reversed array; a [replace]
    without a replacement inserts the text "undefined". *)
Definition fromBytes (bytes : list Z) : completion t :=
  match bytes with
  | b0 :: offset :: delay :: b3 :: rest =>
      match _ANIMATE_DECODING !! b0 with
      | None =>
          h ← toString16 (Some b0);
          Throw (RangeError (str "Unexpected animate byte value " ++ h ++ str " at index 0"))
      | Some animate =>
          if negb (b3 =? 0x00)%Z
          then Throw (ReferenceError (str "bytes_in is not defined"))
          else
            let rawText := rest in
            let rawText := reverse (drop_while (λ b, (b =? _NEWLINE_BYTESEQ)%Z) (reverse rawText)) in
            let '(lines, line) :=
              foldl (λ '(lines, line) char,
                       if (char =? _NEWLINE_BYTESEQ)%Z
                       then (lines ++ [line], [])
                       else (lines, line ++ [char]))
                    ([], []) rawText in
            let lines := lines ++ [line] in
            let text :=
              Array_join [] (replicate (Z.to_nat offset) _NEWLINE_CHAR)
              ++ Array_join _NEWLINE_CHAR
                   ((λ line,
                       String_replace _RIGHT_CHAR_ENCODED _RIGHT_CHAR_DECODED
                         (Symbol_replace (decodeText line) trailing_spaces_re (str "undefined")))
                      <$> lines) in
            Return (new (Str animate) (Int delay) text)
      end
  | _ => Throw (RangeError (str "Not enough bytes for a Page"))
  end.

End Page.

(** ** [class PingMessage] and [class ResponseMessage]

    [bytes[i]] is [bytes !! i]: reading past the end gives [undefined], and
    [===] between numbers or [undefined] is equality of the options.

    Both classes extend [Message], whose methods have empty bodies, and
    neither constructor calls [super()]. The record [t] is the object a
    constructor would build, with its two private fields. *)

Module PingMessage.
Import JS.

Record t := Build { unspecified_byte : Z; address : Z }.

(** [constructor(unspecified_byte=0x6F, address=0x01)]: an [undefined]
    argument takes its default. The first statement assigns to
    [this.#unspecified_byte]; no [super()] has been called, so [this] is
    not bound and the assignment throws. *)
Definition new (unspecified_byte address : option Z) : completion t :=
  let unspecified_byte' := default 0x6F%Z unspecified_byte in
  let address' := default 0x01%Z address in
  _ ← derived_this (None : option t);
  Return {| unspecified_byte := unspecified_byte'; address := address' |}.

Definition marker (address : Z) : list Z := [address; 0x50%Z].

Definition fromBytes (bytes : list Z) (address : Z) : completion t :=
  if (length bytes <? 3)%nat then Throw (RangeError (str "Unexpected end of data"))
  else if (3 <? length bytes)%nat then Throw (RangeError (str "Unexpected data"))
  else
    let expectedMarker := marker address in
    if negb (bool_decide (bytes !! 0%nat = expectedMarker !! 0%nat)
             && bool_decide (bytes !! 1%nat = expectedMarker !! 1%nat))
    then Throw (RangeError (str "Incorrect header for PingMessage"))
    else new (bytes !! 2%nat) (Some address).

Definition toBytes (this : t) : list Z :=
  marker (address this) ++ [unspecified_byte this].

End PingMessage.

Module ResponseMessage.
Import JS.

Record t := Build { unspecified_byte : option Z; address : Z }.

(** [constructor(unspecified_byte, address=0x01)], with the same first
    assignment through an unbound [this]. *)
Definition new (unspecified_byte address : option Z) : completion t :=
  let address' := default 0x01%Z address in
  _ ← derived_this (None : option t);
  Return {| unspecified_byte := unspecified_byte; address := address' |}.

Definition marker (address : Z) : list Z := [address; 0x52%Z].

Definition fromBytes (bytes : list Z) (address : Z) : completion t :=
  if (length bytes <? 4)%nat then Throw (RangeError (str "Unexpected end of data"))
  else if (4 <? length bytes)%nat then Throw (RangeError (str "Unexpected data"))
  else
    let expectedMarker := marker address in
    if negb (bool_decide (bytes !! 0%nat = expectedMarker !! 0%nat)
             && bool_decide (bytes !! 1%nat = expectedMarker !! 1%nat))
    then Throw (RangeError (str "Incorrect header for ResponseMessage"))
    else if negb (bool_decide (bytes !! 3%nat = Some 0x00%Z))
    then h ← toString16 (bytes !! 3%nat);
         Throw (RangeError (str "Unexpected value " ++ h ++ str " at position 3"))
    else new (bytes !! 2%nat) (Some address).

Definition toBytes (this : t) : list (option Z) :=
  (Some <$> marker (address this)) ++ [unspecified_byte this; Some 0x00%Z].

End ResponseMessage.

(** ** The vocabulary of the specification

    The errors the specification names, as the errors the code throws, and
    the invariants it gives a [Page]. *)

Module Spec.
Import JS.

(** UnsupportedCharacter: the RangeError that [encodeText] prepares. *)
Definition UnsupportedCharacter (e : Error) : Prop :=
  ∃ chars, e = RangeError (chars ++ str " not in allowed characters").

(** TruncatedFrame and UnknownAnimationByte of [Page.fromBytes]. *)
Definition TruncatedFrame (e : Error) : Prop :=
  e = RangeError (str "Not enough bytes for a Page").

Definition UnknownAnimationByte (e : Error) : Prop :=
  ∃ h, e = RangeError (str "Unexpected animate byte value " ++ h ++ str " at index 0").

(** MalformedReservedByte: the RangeError on a non-zero byte at index 3,
    in the wording of [Page.fromBytes] or of [ResponseMessage.fromBytes]. *)
Definition MalformedReservedByte (e : Error) : Prop :=
  ∃ h, e = RangeError (str "unexpected byte value " ++ h ++ str " at index 3")
       ∨ e = RangeError (str "Unexpected value " ++ h ++ str " at position 3").

(** FrameMismatch: a wrong length or a wrong marker for the frame class [cls]. *)
Definition FrameMismatch (cls : string) (e : Error) : Prop :=
  e = RangeError (str "Unexpected end of data")
  ∨ e = RangeError (str "Unexpected data")
  ∨ e = RangeError (str "Incorrect header for " ++ str cls).

(** The three animations. *)
Definition valid_animate (a : Page.animate_value) : Prop :=
  Page.animate_toString a = str "N" ∨ Page.animate_toString a = str "V"
  ∨ Page.animate_toString a = str "H".

(** A delay that fits one byte. *)
Definition valid_delay (d : number) : Prop :=
  ∃ z, d = Int z ∧ (0 ≤ z ≤ 255)%Z.

(** The permitted character set, in the words of the specification: space,
    the printable ASCII range without the twelve characters it lists
    (double quote, percent, at, the two square brackets, caret, underscore,
    backtick, the two braces, the bar and the tilde), and six glyphs:
    middle dot, bullet, light and heavy horizontal box drawing, full block
    and upper one eighth block. *)
Definition excluded_ascii : list N :=
  [34; 37; 64; 91; 93; 94; 95; 96; 123; 124; 125; 126]%N.

Definition symbol_glyphs : list N :=
  [0x00B7; 0x2022; 0x2500; 0x2501; 0x2588; 0x2594]%N.

Definition permitted (c : N) : bool :=
  (c =? 0x20)%N
  || ((0x21 <=? c)%N && (c <=? 0x7E)%N && negb (existsb (N.eqb c) excluded_ascii))
  || existsb (N.eqb c) symbol_glyphs.

(** A permitted character, or one of the control characters [~] and [_]. *)
Definition valid_char (c : N) : Prop :=
  is_Some (Page._TEXT_ENCODING !! [c]) ∨ c = 126%N ∨ c = 95%N.

Definition valid_Page (p : Page.t) : Prop :=
  valid_animate (Page.animate p) ∧ valid_delay (Page.delay p)
  ∧ Forall valid_char (Page.text p).

(** A line that the byte codec gives back as it is: at most one [~], no
    space at the end, and no escape [\R] before the [~] (or anywhere, when
    the line has none). *)
Definition line_round_trips (line : jsstring) : Prop :=
  (∀ pre post, line = pre ++ 126%N :: post → 126%N ∉ post)
  ∧ last line ≠ Some 32%N
  ∧ String_includes (str "\R") (take_while (λ c, negb (c =? 126)%N) line) = false.

(** A text that the byte codec gives back as it is: at most 255 leading
    [_], no [_] at the end of what follows them, and lines as above. *)
Definition text_round_trips (text : jsstring) : Prop :=
  (length (take_while (λ c, (c =? 95)%N) text) ≤ 255)%nat
  ∧ last (drop_while (λ c, (c =? 95)%N) text) ≠ Some 95%N
  ∧ Forall line_round_trips
      (String_split (str "_") (drop_while (λ c, (c =? 95)%N) text)).

(** The character codec of the specification encodes [line] as [bytes]:
    unit by unit, the byte of the encode table. *)
Definition encodes (line : jsstring) (bytes : list Z) : Prop :=
  Forall2 (λ c b, Page._TEXT_ENCODING !! [c] = Some b) line bytes.

(** The escape of the specification: every [~] of a line becomes [\R]. *)
Definition escape_every_marker (line : jsstring) : jsstring :=
  mjoin ((λ c, if (c =? 126)%N then str "\R" else [c]) <$> line).

(** Structural equivalence of pages: the same animation letter, the same
    delay, the same text. *)
Definition Page_equiv (p q : Page.t) : Prop :=
  Page.animate_toString (Page.animate p) = Page.animate_toString (Page.animate q)
  ∧ Page.delay p = Page.delay q
  ∧ Page.text p = Page.text q.

End Spec.

(** ** The page grammar as a function

    The groups that the optional prefix of [Page._STR_RE] captures, read
    off the pattern; [STR_RE_match] below proves that the matcher finds
    exactly these. *)

Module Grammar.
Import JS.

(** What follows a run of digits, when a caret ends the run. *)
Definition after_caret (s : jsstring) : option jsstring :=
  match drop_while is_digit s with
  | c :: t => if (c =? 94)%N then Some t else None
  | [] => None
  end.

(** The groups of the optional prefix of [_STR_RE] on [s]: animate, delay
    and the text after the caret. *)
Definition parse_prefix (s : jsstring) : option (jsstring * jsstring * jsstring) :=
  match s with
  | c :: s' =>
      if is_letter c
      then t ← after_caret s'; Some ([c], take_while is_digit s', t)
      else t ← after_caret s; Some ([], take_while is_digit s, t)
  | [] => None
  end.

(** The animation field of the prefix: empty, or one letter. *)
Definition opt_letter (a : jsstring) : Prop :=
  a = [] ∨ ∃ c, a = [c] ∧ is_letter c = true.

(** A run of decimal digits. *)
Definition digit_run (d : jsstring) : Prop :=
  Forall (λ c, is_digit c = true) d.

End Grammar.

(** ** The layout of the text body, line by line *)

Module Layout.
Import JS RegExp.

(** The bytes that [toBytes] writes for one line. *)
Definition line_bytes (line : jsstring) : list Z :=
  Buffer_from
    ((λ c, Int <$> Page._TEXT_ENCODING !! [c])
       <$> JS.String_replace Page._RIGHT_CHAR_DECODED Page._RIGHT_CHAR_ENCODED line).

(** The text that [fromBytes] reads from the bytes of one line. *)
Definition line_text (bytes : list Z) : jsstring :=
  JS.String_replace Page._RIGHT_CHAR_ENCODED Page._RIGHT_CHAR_DECODED
    (Symbol_replace (Page.decodeText bytes) Page.trailing_spaces_re (str "undefined")).

End Layout.

Import JS RegExp Grammar Layout.

(** The tables are looked up, never unfolded, outside of computations. *)
#[global] Opaque Page._TEXT_ENCODING Page._TEXT_DECODING.
#[global] Opaque Page._ANIMATE_ENCODING Page._ANIMATE_DECODING.

(** ** The character codec *)

Section codec.

Lemma table_forall {K V} `{Countable K} (f : K → V → bool) (m : gmap K V) :
  forallb (λ kv, f kv.1 kv.2) (map_to_list m) = true →
  ∀ k v, m !! k = Some v → f k v = true.
Proof.
  intros Hall k v Hkv. rewrite forallb_forall in Hall.
  apply (Hall (k, v)). apply list_elem_of_In. by apply elem_of_map_to_list.
Qed.

(** Every key of the encode table is a one-unit string, its byte decodes
    back to it, fits a byte and is not the newline byte. *)
Lemma TEXT_ENCODING_entry c b :
  Page._TEXT_ENCODING !! c = Some b →
  (∃ u, c = [u]) ∧ Page._TEXT_DECODING !! b = Some c
  ∧ (0 ≤ b < 256)%Z ∧ b ≠ Page._NEWLINE_BYTESEQ.
Proof.
  intros Hcb.
  pose (f := λ (c : jsstring) (b : Z),
          match c with [_] => true | _ => false end
          && bool_decide (Page._TEXT_DECODING !! b = Some c)
          && (0 <=? b)%Z && (b <? 256)%Z && negb (b =? Page._NEWLINE_BYTESEQ)%Z).
  assert (f c b = true) as Hf.
  { apply (table_forall f Page._TEXT_ENCODING); [by vm_compute | done]. }
  unfold f in Hf. clear f Hcb.
  apply andb_prop in Hf as [Hf Hnl]. apply andb_prop in Hf as [Hf Hhi].
  apply andb_prop in Hf as [Hf Hlo]. apply andb_prop in Hf as [Hunit Hdec].
  apply bool_decide_eq_true in Hdec.
  apply negb_true_iff, Z.eqb_neq in Hnl.
  split; [|split; [exact Hdec|split; [lia|exact Hnl]]].
  clear Hdec. destruct c as [|u [|? ?]]; [discriminate Hunit| |discriminate Hunit].
  by exists u.
Qed.

(** Every value of the decode table is a one-unit string. *)
Lemma TEXT_DECODING_entry b c :
  Page._TEXT_DECODING !! b = Some c → ∃ u, c = [u].
Proof.
  intros Hbc.
  pose (f := λ (b : Z) (c : jsstring), match c with [_] => true | _ => false end).
  assert (f b c = true) as Hf.
  { apply (table_forall f Page._TEXT_DECODING); [by vm_compute | done]. }
  unfold f in Hf. clear f Hbc.
  destruct c as [|u [|? ?]]; [discriminate Hf| |discriminate Hf].
  by exists u.
Qed.

Lemma encodeText_loop_fst text : ∀ i pre bad,
  length pre = i →
  (Page.encodeText_loop text i (pre ++ replicate (length text) None) bad).1
  = pre ++ ((λ c, Int <$> Page._TEXT_ENCODING !! [c]) <$> text).
Proof.
  induction text as [|c rest IH]; intros i pre bad Hi; [done|].
  cbn [Page.encodeText_loop length replicate fmap list_fmap].
  destruct (Page._TEXT_ENCODING !! [c]) as [b|] eqn:Hc.
  - replace (<[i:=Some (Int b)]> (pre ++ None :: replicate (length rest) None))
      with ((pre ++ [Some (Int b)]) ++ replicate (length rest) (None : value)).
    + rewrite IH; [by rewrite <- app_assoc | rewrite length_app; simpl; lia].
    + rewrite <- Hi, insert_app_r_alt, Nat.sub_diag by lia.
      by rewrite <- app_assoc.
  - replace (pre ++ None :: replicate (length rest) None)
      with ((pre ++ [None]) ++ replicate (length rest) (None : value))
      by (by rewrite <- app_assoc).
    rewrite IH; [by rewrite <- app_assoc | rewrite length_app; simpl; lia].
Qed.

(** [encodeText] never throws: it returns one slot per unit of the text,
    the byte of a unit of the table and a hole for any other unit. *)
Lemma encodeText_returns text :
  Page.encodeText text
  = Return ((λ c, Int <$> Page._TEXT_ENCODING !! [c]) <$> text).
Proof.
  unfold Page.encodeText.
  pose proof (encodeText_loop_fst text 0 [] ∅ eq_refl) as Hfst.
  simpl in Hfst.
  destruct (Page.encodeText_loop text 0 (replicate (length text) None) ∅)
    as [bytesOut badChars].
  simpl in *. by subst.
Qed.

Lemma decodeText_foldl bytes : ∀ acc,
  foldl (λ text byte,
           match Page._TEXT_DECODING !! byte with
           | Some c => text ++ c
           | None => text ++ [0xFFFD%N]
           end) acc bytes
  = acc ++ mjoin ((λ b, default [0xFFFD%N] (Page._TEXT_DECODING !! b)) <$> bytes).
Proof.
  induction bytes as [|b bytes IH]; intros acc; simpl.
  - by rewrite app_nil_r.
  - rewrite IH. destruct (Page._TEXT_DECODING !! b); simpl; by rewrite <- app_assoc.
Qed.

Lemma decodeText_mjoin bytes :
  Page.decodeText bytes
  = mjoin ((λ b, default [0xFFFD%N] (Page._TEXT_DECODING !! b)) <$> bytes).
Proof. unfold Page.decodeText. by rewrite decodeText_foldl. Qed.

(** One unit out for every byte in. *)
Lemma decodeText_units bytes :
  Page.decodeText bytes
  = (λ b, match Page._TEXT_DECODING !! b with
          | Some [u] => u
          | _ => 0xFFFD%N
          end) <$> bytes.
Proof.
  rewrite decodeText_mjoin.
  induction bytes as [|b bytes IH]; [done|].
  rewrite !fmap_cons.
  change (mjoin (?x :: ?l)) with (x ++ mjoin l). rewrite IH.
  destruct (Page._TEXT_DECODING !! b) as [c|] eqn:Hb; [|done].
  by destruct (TEXT_DECODING_entry _ _ Hb) as [u ->].
Qed.

End codec.

Section codec_properties.

Lemma encodeText_single c b :
  Page.encodeText c = Return [Some (Int b)] ↔ Page._TEXT_ENCODING !! c = Some b.
Proof.
  rewrite encodeText_returns. split.
  - intros [= Hc]. destruct c as [|u [|? ?]]; [discriminate Hc| |discriminate Hc].
    simpl in Hc. destruct (Page._TEXT_ENCODING !! [u]); simpl in Hc; by simplify_eq.
  - intros Hc. destruct (TEXT_ENCODING_entry _ _ Hc) as [[u ->] _].
    simpl. by rewrite Hc.
Qed.

Lemma decodeText_single b c :
  Page._TEXT_DECODING !! b = Some c → Page.decodeText [b] = c.
Proof.
  intros Hb. rewrite decodeText_mjoin. simpl. rewrite Hb. apply app_nil_r.
Qed.

(** A permitted character is a unit of the printable ASCII range or one
    of the six glyphs. *)
Lemma permitted_candidates c :
  Spec.permitted c = true →
  c ∈ (N.of_nat <$> seq 0x20 95) ++ Spec.symbol_glyphs.
Proof.
  unfold Spec.permitted. intros Hp. apply elem_of_app.
  apply orb_prop in Hp as [Hp | Hp].
  - left. apply list_elem_of_fmap. exists (N.to_nat c).
    split; [lia|]. apply elem_of_seq.
    apply orb_prop in Hp as [Hp | Hp]; [lia|].
    apply andb_prop in Hp as [Hp _]. apply andb_prop in Hp as [Hlo Hhi]. lia.
  - right. apply existsb_exists in Hp as (x & Hin & Heq).
    apply N.eqb_eq in Heq. subst x. by apply list_elem_of_In.
Qed.

(** The encode table has an entry for every permitted character ... *)
Lemma TEXT_ENCODING_permitted c :
  Spec.permitted c = true → ∃ b, Page._TEXT_ENCODING !! [c] = Some b.
Proof.
  intros Hp.
  pose (g := λ c, implb (Spec.permitted c)
                    (match Page._TEXT_ENCODING !! [c] with Some _ => true | None => false end)).
  assert (forallb g ((N.of_nat <$> seq 0x20 95) ++ Spec.symbol_glyphs) = true) as Hall
    by (by vm_compute).
  rewrite forallb_forall in Hall.
  pose proof (Hall c (proj1 (list_elem_of_In _ _) (permitted_candidates c Hp))) as Hg.
  unfold g in Hg. rewrite Hp in Hg. cbn [implb] in Hg.
  destruct (Page._TEXT_ENCODING !! [c]) as [b|]; [by exists b|discriminate Hg].
Qed.

(** ... and for nothing else. *)
Lemma TEXT_ENCODING_only_permitted s b :
  Page._TEXT_ENCODING !! s = Some b → ∃ c, s = [c] ∧ Spec.permitted c = true.
Proof.
  intros Hs.
  pose (f := λ (s : jsstring) (b : Z),
          match s with [c] => Spec.permitted c | _ => false end).
  assert (f s b = true) as Hf.
  { apply (table_forall f Page._TEXT_ENCODING); [by vm_compute | exact Hs]. }
  unfold f in Hf. clear f Hs.
  destruct s as [|c [|? ?]]; [discriminate Hf| |discriminate Hf].
  by exists c.
Qed.

(** C7. Every character of the permitted set (space, the printable ASCII
    range without its twelve excluded characters, and the six glyphs) is
    encoded to one byte and survives encode then decode; every canonical
    byte (one that [encodeText] produces for some character, which is then
    a permitted one) survives decode then encode; the bytes 0x98, 0xA4 and
    0xA5 decode to a glyph whose encoding is another byte (0x97, 0xA3 and
    0xA3). *)
Theorem C7_codec_round_trips :
  (∀ c, Spec.permitted c = true →
     ∃ b, Page._TEXT_ENCODING !! [c] = Some b
          ∧ Page.encodeText [c] = Return [Some (Int b)]
          ∧ Page.decodeText [b] = [c])
  ∧ (∀ s b, Page.encodeText s = Return [Some (Int b)] →
       (∃ c, s = [c] ∧ Spec.permitted c = true)
       ∧ Page.encodeText (Page.decodeText [b]) = Return [Some (Int b)])
  ∧ (Page.decodeText [0x98%Z] = [0x2500%N]
     ∧ Page.encodeText [0x2500%N] = Return [Some (Int 0x97)]
     ∧ Page.decodeText [0xA4%Z] = [0x2594%N]
     ∧ Page.decodeText [0xA5%Z] = [0x2594%N]
     ∧ Page.encodeText [0x2594%N] = Return [Some (Int 0xA3)]).
Proof.
  split; [|split].
  - intros c Hp. destruct (TEXT_ENCODING_permitted c Hp) as [b Hc].
    exists b. split; [exact Hc|]. split; [by apply encodeText_single|].
    apply decodeText_single. by apply TEXT_ENCODING_entry.
  - intros s b Hs. apply encodeText_single in Hs.
    split; [exact (TEXT_ENCODING_only_permitted s b Hs)|].
    rewrite (decodeText_single b s); [by apply encodeText_single|].
    by apply TEXT_ENCODING_entry.
  - by vm_compute.
Qed.

Lemma C7_codec_round_trips_witness :
  Spec.permitted 0x61%N = true
  ∧ Page.encodeText (str "a") = Return [Some (Int 0x61)]
  ∧ Page.decodeText [0x61%Z] = str "a"
  ∧ Spec.permitted 0x2588%N = true
  ∧ Page.encodeText [0x2588%N] = Return [Some (Int 0x5F)]
  ∧ Page.decodeText [0x5F%Z] = [0x2588%N]
  ∧ Page.encodeText (Page.decodeText [0x5F%Z]) = Return [Some (Int 0x5F)].
Proof.
  destruct C7_codec_round_trips as (Hchar & Hbyte & _).
  assert (Spec.permitted 0x61%N = true) as Ha by reflexivity.
  assert (Spec.permitted 0x2588%N = true) as Hblock by reflexivity.
  assert (Page._TEXT_ENCODING !! [0x61%N] = Some 0x61%Z) as Hta by (by vm_compute).
  assert (Page._TEXT_ENCODING !! [0x2588%N] = Some 0x5F%Z) as Htblock by (by vm_compute).
  destruct (Hchar _ Ha) as (b1 & Hb1 & Henc1 & Hdec1).
  destruct (Hchar _ Hblock) as (b2 & Hb2 & Henc2 & Hdec2).
  rewrite Hta in Hb1. injection Hb1 as <-.
  rewrite Htblock in Hb2. injection Hb2 as <-.
  split; [exact Ha|]. split; [exact Henc1|]. split; [exact Hdec1|].
  split; [exact Hblock|]. split; [exact Henc2|]. split; [exact Hdec2|].
  exact (proj2 (Hbyte _ _ Henc2)).
Defined.

(** C8. [decodeText] is a total function: it gives one unit for every byte,
    the character of the decode table where the byte has one and U+FFFD
    where it has none. *)
Theorem C8_decodeText_total (bytes : list Z) :
  length (Page.decodeText bytes) = length bytes
  ∧ ∀ i b, bytes !! i = Some b →
      match Page._TEXT_DECODING !! b with
      | Some c => (λ u, [u]) <$> Page.decodeText bytes !! i = Some c
      | None => Page.decodeText bytes !! i = Some 0xFFFD%N
      end.
Proof.
  rewrite decodeText_units. split; [by rewrite length_fmap|].
  intros i b Hi. rewrite list_lookup_fmap, Hi. simpl.
  destruct (Page._TEXT_DECODING !! b) as [c|] eqn:Hb; [|done].
  by destruct (TEXT_DECODING_entry _ _ Hb) as [u ->].
Qed.

Lemma C8_decodeText_total_witness :
  [0xA4%Z; 0x01%Z; 0x41%Z] !! 1%nat = Some 0x01%Z
  ∧ Page._TEXT_DECODING !! 0x01%Z = None
  ∧ Page.decodeText [0xA4%Z; 0x01%Z; 0x41%Z] !! 1%nat = Some 0xFFFD%N.
Proof.
  split; [reflexivity|]. split; [by vm_compute|].
  pose proof (proj2 (C8_decodeText_total [0xA4%Z; 0x01%Z; 0x41%Z]) 1%nat 0x01%Z eq_refl) as H.
  assert (Page._TEXT_DECODING !! 0x01%Z = None) as Hnone by (by vm_compute).
  rewrite Hnone in H. exact H.
Defined.

(** [encodeText] returns for every text, whatever its characters. *)
Lemma encodeText_never_throws text : returns (Page.encodeText text) = true.
Proof. by rewrite encodeText_returns. Qed.

Lemma encodeText_no_UnsupportedCharacter text e :
  Spec.UnsupportedCharacter e → Page.encodeText text ≠ Throw e.
Proof. intros _. by rewrite encodeText_returns. Qed.

(** C3 (the code departs from the specification). On "a%b", whose second character
    is not in the encode table, [encodeText] does not fail: it returns the
    array with a hole at that character. The guard reads [badChars.length],
    which a Set does not have. *)
Theorem C3_encodeText_unsupported_returns :
  Page._TEXT_ENCODING !! str "%" = None
  ∧ Page.encodeText (str "a%b") = Return [Some (Int 0x61); None; Some (Int 0x62)].
Proof. by vm_compute. Qed.

End codec_properties.

(** ** Message framing *)

Section framing.

Lemma bool_decide_Some (x y : Z) :
  bool_decide (Some x = Some y) = bool_decide (x = y).
Proof. apply bool_decide_ext. split; [by intros [= ->]|by intros ->]. Qed.

Lemma PingMessage_fromBytes_marker address b0 b1 b2 :
  PingMessage.fromBytes [b0; b1; b2] address
  = Throw (if bool_decide (b0 = address ∧ b1 = 0x50%Z)
           then this_not_bound
           else RangeError (str "Incorrect header for PingMessage")).
Proof.
  unfold PingMessage.fromBytes, PingMessage.marker, PingMessage.new. simpl.
  rewrite !bool_decide_Some, <- bool_decide_and.
  by destruct (bool_decide (b0 = address ∧ b1 = 0x50%Z)).
Qed.

Lemma ResponseMessage_fromBytes_marker address b0 b1 b2 b3 :
  ResponseMessage.fromBytes [b0; b1; b2; b3] address
  = if bool_decide (b0 = address ∧ b1 = 0x52%Z)
    then if bool_decide (b3 = 0x00%Z)
         then Throw this_not_bound
         else h ← toString16 (Some b3);
              Throw (RangeError (str "Unexpected value " ++ h ++ str " at position 3"))
    else Throw (RangeError (str "Incorrect header for ResponseMessage")).
Proof.
  unfold ResponseMessage.fromBytes, ResponseMessage.marker, ResponseMessage.new.
  cbn [length Nat.ltb Nat.leb lookup list_lookup default].
  rewrite !bool_decide_Some, <- bool_decide_and.
  by destruct (bool_decide (b0 = address ∧ b1 = 0x52%Z)), (bool_decide (b3 = 0x00%Z)).
Qed.

(** C5 (the code departs from the specification). On the three bytes
    [address, 0x50, b], and on the four bytes [address, 0x52, b, 0x00],
    [fromBytes] does not return a message: the frame passes every check,
    and then the constructor throws a ReferenceError, because it assigns
    through [this] in a class that extends [Message] without a call of
    [super()]. That error is none of the two the specification names. *)
Theorem C5_fromBytes_constructor_throws :
  PingMessage.fromBytes [0x01%Z; 0x50%Z; 0x6F%Z] 0x01%Z = Throw this_not_bound
  ∧ ResponseMessage.fromBytes [0x01%Z; 0x52%Z; 0x6F%Z; 0x00%Z] 0x01%Z = Throw this_not_bound
  ∧ (∀ address b,
       PingMessage.fromBytes [address; 0x50%Z; b] address = Throw this_not_bound
       ∧ ResponseMessage.fromBytes [address; 0x52%Z; b; 0x00%Z] address
         = Throw this_not_bound)
  ∧ (∀ cls, ¬ Spec.FrameMismatch cls this_not_bound)
  ∧ ¬ Spec.MalformedReservedByte this_not_bound.
Proof.
  split; [reflexivity|]. split; [reflexivity|]. split; [|split].
  - intros address b.
    rewrite PingMessage_fromBytes_marker, ResponseMessage_fromBytes_marker.
    by rewrite !bool_decide_eq_true_2.
  - intros cls [H | [H | H]]; discriminate H.
  - intros [h [H | H]]; discriminate H.
Qed.

End framing.

(** ** Decoding a page: the header checks *)

Section page_header.

Lemma ANIMATE_DECODING_table :
  Page._ANIMATE_DECODING
  = <[0x2F%Z := str "H"]> (<[0x1D%Z := str "V"]> (<[0x00%Z := str "N"]> ∅)).
Proof. by vm_compute. Qed.

Lemma ANIMATE_DECODING_lookup b :
  Page._ANIMATE_DECODING !! b
  = if bool_decide (b = 0x2F%Z) then Some (str "H")
    else if bool_decide (b = 0x1D%Z) then Some (str "V")
    else if bool_decide (b = 0x00%Z) then Some (str "N")
    else None.
Proof.
  rewrite ANIMATE_DECODING_table.
  destruct (decide (b = 0x2F%Z)) as [->|H1]; [by rewrite lookup_insert_eq|].
  rewrite (bool_decide_eq_false_2 _ H1), lookup_insert_ne by done.
  destruct (decide (b = 0x1D%Z)) as [->|H2]; [by rewrite lookup_insert_eq|].
  rewrite (bool_decide_eq_false_2 _ H2), lookup_insert_ne by done.
  destruct (decide (b = 0x00%Z)) as [->|H3]; [by rewrite lookup_insert_eq|].
  rewrite (bool_decide_eq_false_2 _ H3), lookup_insert_ne by done.
  apply lookup_empty.
Qed.

Lemma ANIMATE_ENCODING_table :
  Page._ANIMATE_ENCODING
  = <[str "H" := 0x2F%Z]> (<[str "V" := 0x1D%Z]> (<[str "N" := 0x00%Z]> ∅)).
Proof. by vm_compute. Qed.

Lemma ANIMATE_ENCODING_lookup s b :
  Page._ANIMATE_ENCODING !! s = Some b
  ↔ (s = str "N" ∧ b = 0x00%Z) ∨ (s = str "V" ∧ b = 0x1D%Z)
    ∨ (s = str "H" ∧ b = 0x2F%Z).
Proof.
  rewrite ANIMATE_ENCODING_table.
  rewrite !lookup_insert_Some, lookup_empty.
  split.
  - intros [[<- <-] | [_ [[<- <-] | [_ [[<- <-] | [_ H]]]]]];
      [by right; right | by right; left | by left | discriminate H].
  - intros [[-> ->] | [[-> ->] | [-> ->]]].
    + right. split; [discriminate|]. right. split; [discriminate|]. by left.
    + right. split; [discriminate|]. by left.
    + by left.
Qed.

(** Fewer than four bytes: the RangeError of a truncated frame. *)
Lemma fromBytes_truncated bytes :
  (length bytes < 4)%nat →
  ∃ e, Page.fromBytes bytes = Throw e ∧ Spec.TruncatedFrame e.
Proof.
  intros Hlen. exists (RangeError (str "Not enough bytes for a Page")).
  split; [|reflexivity].
  destruct bytes as [|b0 [|b1 [|b2 [|b3 rest]]]]; try reflexivity.
  simpl in Hlen. lia.
Qed.

(** Four bytes or more and an unknown first byte: the RangeError of an
    unknown animation byte. *)
Lemma fromBytes_unknown_animate b0 offset delay b3 rest :
  b0 ≠ 0x00%Z → b0 ≠ 0x1D%Z → b0 ≠ 0x2F%Z →
  ∃ e, Page.fromBytes (b0 :: offset :: delay :: b3 :: rest) = Throw e
       ∧ Spec.UnknownAnimationByte e.
Proof.
  intros H0 H1 H2. unfold Page.fromBytes.
  rewrite ANIMATE_DECODING_lookup, !bool_decide_eq_false_2 by done.
  eexists. split; [reflexivity|]. by eexists.
Qed.

(** A known first byte and a non-zero fourth byte: the ReferenceError of
    the undeclared name in the message, before any RangeError is built. *)
Lemma fromBytes_reserved b0 offset delay b3 rest :
  b0 = 0x00%Z ∨ b0 = 0x1D%Z ∨ b0 = 0x2F%Z → b3 ≠ 0x00%Z →
  Page.fromBytes (b0 :: offset :: delay :: b3 :: rest)
  = Throw (ReferenceError (str "bytes_in is not defined")).
Proof.
  intros Hb0 Hb3. unfold Page.fromBytes.
  rewrite ANIMATE_DECODING_lookup.
  apply Z.eqb_neq in Hb3.
  destruct Hb0 as [-> | [-> | ->]]; simpl; by rewrite Hb3.
Qed.

(** C6 (the code departs from the specification). On the four bytes
    [0x00, 0x00, 0x14, 0x01], with a known animation byte and a non-zero
    fourth byte, [Page.fromBytes] throws a ReferenceError, which is not the
    MalformedReservedByte error. *)
Theorem C6_fromBytes_reserved_byte_error :
  Page.fromBytes [0x00%Z; 0x00%Z; 0x14%Z; 0x01%Z]
  = Throw (ReferenceError (str "bytes_in is not defined"))
  ∧ ¬ Spec.MalformedReservedByte (ReferenceError (str "bytes_in is not defined")).
Proof.
  split; [by vm_compute|]. by intros [h [? | ?]].
Qed.

End page_header.

(** ** The matcher on the three patterns of the program *)

Section regexp_lemmas.

Lemma take_drop_while {A} (p : A → bool) (l : list A) :
  take (length l - length (drop_while p l)) l = take_while p l.
Proof.
  induction l as [|x l IH]; [done|]. simpl.
  destruct (p x).
  - assert (length (drop_while p l) ≤ length l)%nat as Hle.
    { clear. induction l as [|y l IH]; simpl; [lia|]. destruct (p y); simpl; lia. }
    replace (S (length l) - length (drop_while p l))%nat
      with (S (length l - length (drop_while p l))) by lia.
    simpl. by rewrite IH.
  - simpl. by rewrite Nat.sub_diag.
Qed.

Lemma take_drop_while_app {A} (p : A → bool) (l : list A) :
  take_while p l ++ drop_while p l = l.
Proof.
  induction l as [|x l IH]; [done|]. simpl.
  destruct (p x); simpl; [by rewrite IH|done].
Qed.

Lemma take_while_Forall {A} (p : A → bool) (l : list A) :
  Forall (λ x, p x = true) (take_while p l).
Proof.
  induction l as [|x l IH]; simpl; [constructor|].
  destruct (p x) eqn:Hx; by constructor.
Qed.

Lemma take_while_app_stop {A} (p : A → bool) (l : list A) x r :
  Forall (λ y, p y = true) l → p x = false →
  take_while p (l ++ x :: r) = l ∧ drop_while p (l ++ x :: r) = x :: r.
Proof.
  intros Hl Hx. induction Hl as [|y l Hy _ [IH1 IH2]]; simpl.
  - by rewrite Hx.
  - by rewrite Hy, IH1, IH2.
Qed.

Lemma drop_while_all {A} (p : A → bool) (l : list A) :
  drop_while p l = [] ↔ Forall (λ x, p x = true) l.
Proof.
  induction l as [|x l IH]; simpl; [by split; [constructor|]|].
  destruct (p x) eqn:Hx.
  - rewrite IH. split; [by constructor|by inversion 1].
  - split; [done|]. inversion 1; congruence.
Qed.

(** A greedy run gives nothing back when the rest of the pattern cannot
    start with a unit of the class. *)
Lemma star_greedy {A} (p : N → bool) (k : jsstring → captures → option A) s e :
  (∀ c s' e', p c = true → k (c :: s') e' = None) →
  star p k s e = k (drop_while p s) e.
Proof.
  intros Hk. induction s as [|c s IH]; [done|]. simpl.
  destruct (p c) eqn:Hc; [|done].
  rewrite IH. destruct (k (drop_while p s) e) eqn:Hrest; [done|].
  by apply Hk.
Qed.

(** A greedy run gives nothing back when the rest of the pattern matches
    after the longest run. *)
Lemma star_longest {A} (p : N → bool) (k : jsstring → captures → option A) s e :
  is_Some (k (drop_while p s) e) →
  star p k s e = k (drop_while p s) e.
Proof.
  intros [a Ha]. induction s as [|c s IH]; [done|]. simpl in *.
  destruct (p c) eqn:Hc; [|done].
  by rewrite IH, Ha.
Qed.

(** The tail of [_STR_RE]: the group text takes all that is left. *)
Lemma run_text {A} input (k : jsstring → captures → option A) s e :
  run input (Seq (Group "text" (Star (λ _, true))) Eol) k s e
  = k [] (<["text" := s]> e).
Proof.
  cbn [run]. rewrite star_greedy; [|done].
  assert (drop_while (λ _ : N, true) s = []) as -> by (by apply drop_while_all, Forall_true).
  simpl. by rewrite Nat.sub_0_r, firstn_all.
Qed.

Lemma run_delay {A} input (k : jsstring → captures → option A) s e :
  run input (Seq (Group "delay" (Star is_digit)) (Chr 94)) k s e
  = match after_caret s with
    | Some t => k t (<["delay" := take_while is_digit s]> e)
    | None => None
    end.
Proof.
  cbn [run]. rewrite star_greedy.
  - rewrite take_drop_while. unfold after_caret.
    destruct (drop_while is_digit s) as [|c t]; [done|].
    by destruct (c =? 94)%N.
  - intros c s' e' Hc. destruct (c =? 94)%N eqn:Hc94; [|done].
    apply N.eqb_eq in Hc94. by subst c.
Qed.

Lemma after_caret_letter c s : is_letter c = true → after_caret (c :: s) = None.
Proof.
  intros Hc. unfold after_caret. simpl.
  destruct (is_digit c) eqn:Hd.
  - exfalso. unfold is_letter, is_upper, is_lower, is_digit in *. lia.
  - destruct (c =? 94)%N eqn:Hc94; [|done].
    apply N.eqb_eq in Hc94. by subst c.
Qed.

Lemma run_Seq {A} input r1 r2 (k : jsstring → captures → option A) s e :
  run input (Seq r1 r2) k s e = run input r1 (run input r2 k) s e.
Proof. done. Qed.

Lemma run_Group {A} input name r (k : jsstring → captures → option A) s e :
  run input (Group name r) k s e
  = run input r (λ s' e', k s' (<[name := take (length s - length s') s]> e')) s e.
Proof. done. Qed.

Lemma run_Opt {A} input r (k : jsstring → captures → option A) s e :
  run input (Opt r) k s e
  = match run input r k s e with Some a => Some a | None => k s e end.
Proof. done. Qed.

Lemma search_unfold input r s :
  search input r s
  = match match_at input r s with
    | Some m => Some m
    | None => match s with _ :: s' => search input r s' | [] => None end
    end.
Proof. by destruct s. Qed.

Lemma run_Bol {A} input (k : jsstring → captures → option A) s e :
  run input Bol k s e = if (length s =? length input)%nat then k s e else None.
Proof. done. Qed.

Lemma run_Class {A} input p (k : jsstring → captures → option A) s e :
  run input (Class p) k s e
  = match s with c :: s' => if p c then k s' e else None | [] => None end.
Proof. done. Qed.

Lemma run_prefix {A} input (k : jsstring → captures → option A) s e :
  run input
    (Seq (Group "animate" (Opt (Class is_letter)))
         (Seq (Group "delay" (Star is_digit)) (Chr 94))) k s e
  = match parse_prefix s with
    | Some (a, d, t) => k t (<["delay" := d]> (<["animate" := a]> e))
    | None => None
    end.
Proof.
  rewrite run_Seq, run_Group, run_Opt, run_Class. unfold parse_prefix.
  destruct s as [|c s'].
  - by rewrite run_delay.
  - destruct (is_letter c) eqn:Hc.
    + rewrite !run_delay, (after_caret_letter c s' Hc).
      replace (length (c :: s') - length s')%nat with 1%nat by (simpl; lia).
      destruct (after_caret s') as [t|]; simpl; [by destruct (k _ _)|done].
    + rewrite run_delay, Nat.sub_diag.
      by destruct (after_caret (c :: s')) as [t|].
Qed.

(** [_STR_RE] matches every input, at index 0 and to the end. *)
Lemma STR_RE_match input :
  Symbol_match input Page._STR_RE
  = Some {| index := 0;
            matched := input;
            groups := match parse_prefix input with
                      | Some (a, d, t) =>
                          <["text" := t]> (<["delay" := d]> (<["animate" := a]> ∅))
                      | None => <["text" := input]> ∅
                      end |}.
Proof.
  unfold Symbol_match.
  assert (match_at input Page._STR_RE input
          = Some {| index := 0; matched := input;
                    groups := match parse_prefix input with
                              | Some (a, d, t) =>
                                  <["text" := t]> (<["delay" := d]> (<["animate" := a]> ∅))
                              | None => <["text" := input]> ∅
                              end |}) as Hat.
  { unfold match_at, Page._STR_RE.
    rewrite run_Seq, run_Bol, Nat.eqb_refl.
    rewrite run_Seq, run_Opt, run_prefix, !run_text.
    rewrite Nat.sub_diag, Nat.sub_0_r, firstn_all.
    destruct (parse_prefix input) as [[[a d] t]|]; [|done].
    rewrite run_text. simpl. by rewrite Nat.sub_0_r, firstn_all. }
  by rewrite search_unfold, Hat.
Qed.

End regexp_lemmas.

(** ** The page grammar *)

Section grammar.

Lemma parse_prefix_cons c s :
  parse_prefix (c :: s)
  = if is_letter c
    then t ← after_caret s; Some ([c], take_while is_digit s, t)
    else t ← after_caret (c :: s); Some ([], take_while is_digit (c :: s), t).
Proof. done. Qed.

Lemma parse_prefix_intro a d t :
  opt_letter a → digit_run d →
  parse_prefix (a ++ d ++ 94%N :: t) = Some (a, d, t).
Proof.
  intros Ha Hd.
  assert (after_caret (d ++ 94%N :: t) = Some t
          ∧ take_while is_digit (d ++ 94%N :: t) = d) as [Hafter Htake].
  { unfold after_caret.
    destruct (take_while_app_stop is_digit d 94%N t Hd eq_refl) as [-> ->].
    done. }
  destruct Ha as [-> | (c & -> & Hc)].
  - destruct d as [|c d']; [done|].
    inversion Hd as [|? ? Hc _]; subst.
    assert (is_letter c = false) as Hnot.
    { unfold is_letter, is_upper, is_lower, is_digit in *. lia. }
    change ([] ++ (c :: d') ++ 94%N :: t) with (c :: (d' ++ 94%N :: t)).
    change ((c :: d') ++ 94%N :: t) with (c :: (d' ++ 94%N :: t)) in Hafter, Htake.
    by rewrite parse_prefix_cons, Hnot, Hafter, Htake.
  - change ([c] ++ d ++ 94%N :: t) with (c :: (d ++ 94%N :: t)).
    by rewrite parse_prefix_cons, Hc, Hafter, Htake.
Qed.

Lemma after_caret_elim s t :
  after_caret s = Some t → s = take_while is_digit s ++ 94%N :: t.
Proof.
  unfold after_caret. intros Hs.
  rewrite <- (take_drop_while_app is_digit s) at 1.
  destruct (drop_while is_digit s) as [|c r]; [done|].
  destruct (c =? 94)%N eqn:Hc; [|done].
  apply N.eqb_eq in Hc. by simplify_eq.
Qed.

Lemma parse_prefix_elim s a d t :
  parse_prefix s = Some (a, d, t) →
  s = a ++ d ++ 94%N :: t ∧ opt_letter a ∧ digit_run d.
Proof.
  unfold parse_prefix. destruct s as [|c s']; [done|].
  destruct (is_letter c) eqn:Hc.
  - destruct (after_caret s') as [t'|] eqn:Hafter; [|done].
    intros [= <- <- <-]. split; [|split].
    + simpl. f_equal. by apply after_caret_elim.
    + right. by exists c.
    + apply take_while_Forall.
  - destruct (after_caret (c :: s')) as [t'|] eqn:Hafter; [|done].
    intros [= <- <- <-]. split; [|split].
    + by apply after_caret_elim.
    + by left.
    + apply (take_while_Forall is_digit (c :: s')).
Qed.

(** [fromStr] always returns; its page is read off the prefix. *)
Lemma fromStr_parse input default_animate default_delay :
  Page.fromStr input default_animate default_delay
  = Return
      match parse_prefix input with
      | Some (a, d, t) =>
          Page.new
            (match a with
             | [] => default (Page.Obj PageAnimate.NONE) default_animate
             | _ :: _ => Page.Obj (PageAnimate.new a)
             end)
            (match d with
             | [] => default (Int 20) default_delay
             | _ :: _ => parseInt d
             end)
            t
      | None =>
          Page.new (default (Page.Obj PageAnimate.NONE) default_animate)
                   (default (Int 20) default_delay) input
      end.
Proof.
  unfold Page.fromStr. rewrite STR_RE_match. cbn [groups].
  destruct (parse_prefix input) as [[[a d] t]|].
  - rewrite lookup_insert_eq.
    rewrite (lookup_insert_ne _ "text" "animate"), (lookup_insert_ne _ "delay" "animate") by done.
    rewrite (lookup_insert_ne _ "text" "delay") by done.
    rewrite !lookup_insert_eq.
    by destruct a, d.
  - rewrite lookup_insert_eq.
    by rewrite !(lookup_insert_ne _ "text"), !lookup_empty by done.
Qed.

(** C4. Without a grammar prefix the whole input is the text and both
    fields take the defaults (of the caller, or NONE and 20). With a
    prefix, a letter gives the animation of its upper-case form, a
    non-empty digit run gives the delay that [parseInt] reads from it, and
    an absent field takes its default: an empty digit run gives the
    default delay, not zero. *)
Theorem C4_fromStr_prefix_outcomes
    (default_animate : option Page.animate_value) (default_delay : option number) :
  let animate0 := default (Page.Obj PageAnimate.NONE) default_animate in
  let delay0 := default (Int 20) default_delay in
  (∀ input,
     (∀ a d t, opt_letter a → digit_run d → input ≠ a ++ d ++ str "^" ++ t) →
     Page.fromStr input default_animate default_delay
     = Return (Page.new animate0 delay0 input))
  ∧ (∀ a d t, opt_letter a → digit_run d →
     Page.fromStr (a ++ d ++ str "^" ++ t) default_animate default_delay
     = Return (Page.new
                 (match a with
                  | [] => animate0
                  | _ :: _ => Page.Obj (PageAnimate.Build (toUpperCase a))
                  end)
                 (match d with
                  | [] => delay0
                  | _ :: _ => parseInt d
                  end)
                 t))
  ∧ (PageAnimate.Build (toUpperCase (str "n")) = PageAnimate.NONE
     ∧ PageAnimate.Build (toUpperCase (str "N")) = PageAnimate.NONE
     ∧ PageAnimate.Build (toUpperCase (str "v")) = PageAnimate.VSCROLL
     ∧ PageAnimate.Build (toUpperCase (str "V")) = PageAnimate.VSCROLL
     ∧ PageAnimate.Build (toUpperCase (str "h")) = PageAnimate.HSCROLL
     ∧ PageAnimate.Build (toUpperCase (str "H")) = PageAnimate.HSCROLL)
  ∧ (parseInt (str "40") = Int 40 ∧ parseInt (str "0") = Int 0
     ∧ parseInt (str "007") = Int 7)
  ∧ Page.fromStr (str "V^text") None None
    = Return (Page.new (Page.Obj PageAnimate.VSCROLL) (Int 20) (str "text")).
Proof.
  intros animate0 delay0. split; [|split; [|split; [|split]]].
  - intros input Hno. rewrite fromStr_parse.
    destruct (parse_prefix input) as [[[a d] t]|] eqn:Hparse; [|done].
    apply parse_prefix_elim in Hparse as (Hin & Ha & Hd).
    by destruct (Hno a d t Ha Hd).
  - intros a d t Ha Hd. rewrite fromStr_parse.
    change (str "^" ++ t) with (94%N :: t).
    by rewrite (parse_prefix_intro a d t Ha Hd).
  - by vm_compute.
  - by vm_compute.
  - by vm_compute.
Qed.

Lemma C4_fromStr_prefix_outcomes_witness :
  (∀ a d t, opt_letter a → digit_run d → str "ab^c" ≠ a ++ d ++ str "^" ++ t)
  ∧ Page.fromStr (str "ab^c") None (Some (Int 7))
    = Return (Page.new (Page.Obj PageAnimate.NONE) (Int 7) (str "ab^c"))
  ∧ opt_letter (str "h") ∧ digit_run (str "40")
  ∧ Page.fromStr (str "h40^hello") None (Some (Int 7))
    = Return (Page.new (Page.Obj PageAnimate.HSCROLL) (Int 40) (str "hello"))
  ∧ opt_letter (str "V") ∧ digit_run []
  ∧ Page.fromStr (str "V^hello") None (Some (Int 7))
    = Return (Page.new (Page.Obj PageAnimate.VSCROLL) (Int 7) (str "hello")).
Proof.
  destruct (C4_fromStr_prefix_outcomes None (Some (Int 7))) as (Hnone & Hsome & _).
  assert (∀ a d t, opt_letter a → digit_run d → str "ab^c" ≠ a ++ d ++ str "^" ++ t) as Hab.
  { intros a d t Ha Hd Heq.
    pose proof (parse_prefix_intro a d t Ha Hd) as Hp.
    change (94%N :: t) with (str "^" ++ t) in Hp. rewrite <- Heq in Hp.
    vm_compute in Hp. discriminate Hp. }
  assert (opt_letter (str "h")) as Hh by (right; exists 104%N; split; reflexivity).
  assert (opt_letter (str "V")) as HV by (right; exists 86%N; split; reflexivity).
  assert (digit_run (str "40")) as H40 by (repeat constructor).
  assert (digit_run []) as Hnil by constructor.
  split; [exact Hab|]. split; [exact (Hnone _ Hab)|].
  split; [exact Hh|]. split; [exact H40|].
  split; [exact (Hsome _ _ (str "hello") Hh H40)|].
  split; [exact HV|]. split; [exact Hnil|].
  exact (Hsome _ _ (str "hello") HV Hnil).
Defined.

(** C10 (the code departs from the specification). Neither constructor validates:
    the letter X, which no animation has, gives a [PageAnimate], and
    [fromStr] on "X999^hi" returns a page with that animation and the delay
    999. *)
Theorem C10_constructors_do_not_validate :
  PageAnimate.new (str "X") = PageAnimate.Build (str "X")
  ∧ Page._ANIMATE_ENCODING !! str "X" = None
  ∧ Page.fromStr (str "X999^hi") None None
    = Return (Page.new (Page.Obj (PageAnimate.Build (str "X"))) (Int 999) (str "hi")).
Proof. by vm_compute. Qed.

End grammar.

(** ** Printing a page and reading it back *)

Section printing.

(** The decimal digits of a byte, and [parseInt] on them. *)
Lemma digits_byte z :
  (0 ≤ z ≤ 255)%Z →
  digit_run (digits 10 z) ∧ digits 10 z ≠ [] ∧ parseInt (digits 10 z) = Int z.
Proof.
  intros Hz.
  pose (f := λ z : Z,
          forallb is_digit (digits 10 z)
          && match digits 10 z with [] => false | _ :: _ => true end
          && match parseInt (digits 10 z) with Int v => (v =? z)%Z | Infinity => false end).
  assert (forallb f (seqZ 0 256) = true) as Hall by (by vm_compute).
  rewrite forallb_forall in Hall.
  assert (f z = true) as Hf.
  { apply Hall, list_elem_of_In, elem_of_seqZ. lia. }
  unfold f in Hf. clear f Hall.
  apply andb_prop in Hf as [Hf Hparse]. apply andb_prop in Hf as [Hdig Hne].
  split; [|split].
  - unfold digit_run. rewrite forallb_forall in Hdig.
    apply Forall_forall. intros c Hc. by apply Hdig, list_elem_of_In.
  - by destruct (digits 10 z).
  - destruct (parseInt (digits 10 z)) as [v|]; [|done].
    apply Z.eqb_eq in Hparse. by subst v.
Qed.

Lemma toString_byte animate z text :
  (0 ≤ z ≤ 255)%Z →
  Page.toString (Page.new animate (Int z) text)
  = Some (Page.animate_toString animate ++ digits 10 z ++ str "^" ++ text).
Proof.
  intros Hz. unfold Page.toString, Number_toString. cbn [Page.delay].
  assert ((10 ^ 21 <=? Z.abs z)%Z = false) as -> by lia.
  assert ((z <? 0)%Z = false) as -> by lia.
  rewrite Z.abs_eq by lia. done.
Qed.

(** C9. [toString] prints the animation letter, the delay in decimal (a
    non-empty digit run that [parseInt] reads back as the delay), a caret
    and the text, for every page with one of the three animations and a
    delay that fits a byte; and [fromStr] reads that string back as an
    equivalent page, whatever the defaults: the very same page when its
    animation is a [PageAnimate] object. *)
Theorem C9_toString_fromStr :
  (∀ p, Spec.valid_animate (Page.animate p) → Spec.valid_delay (Page.delay p) →
     ∃ d, digit_run d ∧ d ≠ [] ∧ parseInt d = Page.delay p
          ∧ Page.toString p
            = Some (Page.animate_toString (Page.animate p) ++ d ++ str "^" ++ Page.text p)
          ∧ ∀ default_animate default_delay,
              ∃ q, Page.fromStr
                     (Page.animate_toString (Page.animate p) ++ d ++ str "^" ++ Page.text p)
                     default_animate default_delay = Return q
                   ∧ Spec.Page_equiv q p
                   ∧ (∀ a, Page.animate p = Page.Obj a → q = p))
  ∧ Page.toString (Page.new (Page.Obj PageAnimate.VSCROLL) (Int 40)
                     (str "12:34 FUNKYTOWN~5_Limited Express"))
    = Some (str "V40^12:34 FUNKYTOWN~5_Limited Express").
Proof.
  split; [|by vm_compute].
  intros [animate delay text] Hanimate (z & Hdelay & Hz).
  cbn [Page.animate Page.delay Page.text] in *. subst delay.
  destruct (digits_byte z Hz) as (Hrun & Hne & Hparse).
  exists (digits 10 z). split; [done|]. split; [done|]. split; [done|].
  split; [by apply toString_byte|].
  intros default_animate default_delay.
  assert (opt_letter (Page.animate_toString animate)
          ∧ toUpperCase (Page.animate_toString animate) = Page.animate_toString animate)
    as [Hletter Hupper].
  { destruct Hanimate as [-> | [-> | ->]]; (split; [right; eexists; by split|done]). }
  rewrite fromStr_parse.
  change (str "^" ++ text) with (94%N :: text).
  rewrite (parse_prefix_intro _ _ text Hletter Hrun).
  eexists. split; [reflexivity|].
  destruct (Page.animate_toString animate) as [|c0 a0] eqn:Ha.
  { exfalso. unfold Spec.valid_animate in Hanimate. rewrite Ha in Hanimate.
    destruct Hanimate as [H | [H | H]]; discriminate H. }
  destruct (digits 10 z) as [|c1 d1] eqn:Hd; [done|].
  unfold Spec.Page_equiv. cbn [Page.animate Page.delay Page.text Page.animate_toString].
  rewrite Ha. unfold PageAnimate.toString, PageAnimate.new. cbn [PageAnimate.animate].
  rewrite Hupper, Hparse. split; [done|].
  intros [a] ->. cbn [Page.animate_toString PageAnimate.toString PageAnimate.animate] in Ha.
  by subst a.
Qed.

Lemma C9_toString_fromStr_witness :
  Spec.valid_animate (Page.Obj PageAnimate.HSCROLL) ∧ Spec.valid_delay (Int 0)
  ∧ ∃ d, parseInt d = Int 0
         ∧ Page.toString (Page.new (Page.Obj PageAnimate.HSCROLL) (Int 0) (str "a^b"))
           = Some (str "H" ++ d ++ str "^" ++ str "a^b").
Proof.
  assert (Spec.valid_animate (Page.Obj PageAnimate.HSCROLL)) as Ha by (right; right; reflexivity).
  assert (Spec.valid_delay (Int 0)) as Hd by (exists 0%Z; split; [reflexivity|lia]).
  split; [exact Ha|]. split; [exact Hd|].
  destruct (proj1 C9_toString_fromStr
              (Page.new (Page.Obj PageAnimate.HSCROLL) (Int 0) (str "a^b")) Ha Hd)
    as (d & _ & _ & Hparse & Hprint & _).
  exists d. split; [exact Hparse|exact Hprint].
Defined.

End printing.

(** ** Splitting into lines and joining them *)

Section lines.

Lemma Array_join_cons {A} (sep x : list A) l :
  l ≠ [] → Array_join sep (x :: l) = x ++ sep ++ Array_join sep l.
Proof. by destruct l. Qed.

Lemma split_from_nonempty sep skip cur s : split_from sep skip cur s ≠ [].
Proof.
  revert skip cur. induction s as [|c s IH]; intros skip cur; [done|].
  simpl. destruct skip; [|apply IH].
  destruct (is_prefix sep (c :: s)); [done|apply IH].
Qed.

Lemma split_from_sep x cur s :
  split_from [x] 0 cur (x :: s) = cur :: split_from [x] 0 [] s.
Proof. simpl. by rewrite N.eqb_refl. Qed.

Lemma split_from_other x c cur s :
  c ≠ x → split_from [x] 0 cur (c :: s) = split_from [x] 0 (cur ++ [c]) s.
Proof.
  intros Hc. simpl. apply N.eqb_neq in Hc. rewrite N.eqb_sym in Hc. by rewrite Hc.
Qed.

Lemma String_split_unit x s : String_split [x] s = split_from [x] 0 [] s.
Proof. done. Qed.

(** Joining the pieces of a split gives the string back. *)
Lemma join_split_from x s : ∀ cur,
  Array_join [x] (split_from [x] 0 cur s) = cur ++ s.
Proof.
  induction s as [|c s IH]; intros cur.
  - simpl. by rewrite app_nil_r.
  - destruct (decide (c = x)) as [->|Hc].
    + rewrite split_from_sep, Array_join_cons by apply split_from_nonempty.
      by rewrite IH.
    + rewrite split_from_other by done. rewrite IH. by rewrite <- app_assoc.
Qed.

(** No piece of a split holds the separator. *)
Lemma split_from_no_sep x s : ∀ cur,
  x ∉ cur → Forall (λ l, x ∉ l) (split_from [x] 0 cur s).
Proof.
  induction s as [|c s IH]; intros cur Hcur.
  - simpl. by constructor.
  - destruct (decide (c = x)) as [->|Hc].
    + rewrite split_from_sep. constructor; [done|]. apply IH. by apply not_elem_of_nil.
    + rewrite split_from_other by done. apply IH.
      rewrite elem_of_app, list_elem_of_singleton. by intros [? | ->].
Qed.

(** Every unit of a piece is a unit of the string. *)
Lemma split_from_Forall (P : N → Prop) x s : ∀ cur,
  Forall P cur → Forall P s → Forall (Forall P) (split_from [x] 0 cur s).
Proof.
  induction s as [|c s IH]; intros cur Hcur Hs.
  - simpl. by constructor.
  - inversion Hs as [|? ? Hc Hs']; subst.
    destruct (decide (c = x)) as [->|Hcx].
    + rewrite split_from_sep. constructor; [done|]. by apply IH.
    + rewrite split_from_other by done. apply IH; [|done].
      apply Forall_app. split; [done|]. by constructor.
Qed.

(** The last piece is empty only for an empty string or after a final
    separator. *)
Lemma split_from_last x s : ∀ cur,
  ∃ ls l, split_from [x] 0 cur s = ls ++ [l]
          ∧ (l = [] → cur ++ s = [] ∨ last (cur ++ s) = Some x)
          ∧ (ls = [] → l = cur ++ s).
Proof.
  induction s as [|c s IH]; intros cur.
  - exists [], cur. simpl. rewrite app_nil_r. split; [done|]. split; [|done].
    intros ->. by left.
  - destruct (decide (c = x)) as [->|Hc].
    + rewrite split_from_sep.
      destruct (IH []) as (ls & l & Hsplit & Hl & _).
      exists (cur :: ls), l. rewrite Hsplit. split; [done|]. split; [|done].
      intros Hnil. right. destruct (Hl Hnil) as [Hs | Hs].
      * simpl in Hs. subst s. by rewrite last_snoc.
      * simpl in Hs. rewrite last_app, last_cons, Hs. done.
    + rewrite split_from_other by done.
      destruct (IH (cur ++ [c])) as (ls & l & Hsplit & Hl & Hls).
      exists ls, l. rewrite <- app_assoc in Hl, Hls. by rewrite Hsplit.
Qed.

(** [reduce] with a separator in front of every entry, then [slice(1)]. *)
Lemma foldl_sep_entries {A} (x : A) (lines : list (list A)) : ∀ acc,
  foldl (λ acc e, acc ++ [x] ++ e) acc lines
  = acc ++ mjoin ((λ e, x :: e) <$> lines).
Proof.
  induction lines as [|e lines IH]; intros acc; simpl.
  - by rewrite app_nil_r.
  - rewrite IH. by rewrite <- app_assoc.
Qed.

Lemma reduce_slice_join {A} (x : A) (lines : list (list A)) :
  drop 1 (foldl (λ acc e, acc ++ [x] ++ e) [] lines) = Array_join [x] lines.
Proof.
  rewrite foldl_sep_entries.
  destruct lines as [|e lines]; [done|].
  change (drop 1 ([] ++ mjoin ((λ e0, x :: e0) <$> e :: lines)))
    with (e ++ mjoin ((λ e0, x :: e0) <$> lines)).
  revert e. induction lines as [|e' lines IH]; intros e.
  - apply app_nil_r.
  - rewrite Array_join_cons by done. rewrite <- IH. done.
Qed.

Lemma Array_join_fmap {A B} (f : A → B) (x : A) (lines : list (list A)) :
  f <$> Array_join [x] lines = Array_join [f x] ((λ l : list A, f <$> l) <$> lines).
Proof.
  induction lines as [|e lines IH]; [done|].
  destruct lines as [|e' lines]; [done|].
  rewrite Array_join_cons, !fmap_app, IH by done.
  rewrite (fmap_cons _ e). by rewrite Array_join_cons.
Qed.

(** The [while] loop of [fromBytes] pops nothing from an array that does
    not end with the newline byte. *)
Lemma pop_newlines_id (p : Z → bool) (raw : list Z) :
  (∀ b, last raw = Some b → p b = false) →
  reverse (drop_while p (reverse raw)) = raw.
Proof.
  intros Hlast. destruct raw as [|b raw _] using rev_ind; [done|].
  rewrite reverse_snoc. simpl. rewrite (Hlast b) by apply last_snoc.
  by rewrite reverse_cons, reverse_involutive.
Qed.

(** The [for] loop of [fromBytes] splits at the newline bytes: on lines
    joined with that byte and free of it, it gives the lines back. *)
Lemma split_loop_line (x : Z) (l : list Z) : ∀ lines line,
  x ∉ l →
  foldl (λ '(lines, line) char,
           if (char =? x)%Z then (lines ++ [line], []) else (lines, line ++ [char]))
        (lines, line) l
  = (lines, line ++ l).
Proof.
  induction l as [|b l IH]; intros lines line Hl; simpl.
  - by rewrite app_nil_r.
  - apply not_elem_of_cons in Hl as [Hb Hl].
    assert ((b =? x)%Z = false) as -> by (by apply Z.eqb_neq).
    rewrite IH by done. by rewrite <- app_assoc.
Qed.

Lemma split_loop_join (x : Z) (ls : list (list Z)) : ∀ l lines line,
  Forall (λ l, x ∉ l) (l :: ls) →
  (let '(lines', line') :=
     foldl (λ '(lines, line) char,
              if (char =? x)%Z then (lines ++ [line], []) else (lines, line ++ [char]))
           (lines, line) (Array_join [x] (l :: ls)) in
   lines' ++ [line'])
  = lines ++ (line ++ l) :: ls.
Proof.
  induction ls as [|l2 ls IH]; intros l lines line Hall.
  - inversion Hall; subst. simpl Array_join. by rewrite split_loop_line.
  - inversion Hall as [|? ? Hl Hrest]; subst.
    rewrite Array_join_cons by done.
    rewrite !foldl_app, split_loop_line by done.
    simpl foldl at 2. rewrite Z.eqb_refl.
    rewrite IH by done. by rewrite <- app_assoc.
Qed.

End lines.

(** ** The patterns and replacements of the byte codec *)

Section byte_codec_patterns.

Lemma run_Plus {A} input p (k : jsstring → captures → option A) s e :
  run input (Plus p) k s e
  = match s with c :: s' => if p c then star p k s' e else None | [] => None end.
Proof. done. Qed.

Lemma run_Eol {A} input (k : jsstring → captures → option A) s e :
  run input Eol k s e = match s with [] => k s e | _ :: _ => None end.
Proof. done. Qed.

(** A pattern anchored at the start matches at no later position. *)
Lemma search_Bol_later input r s :
  (length s < length input)%nat → search input (Seq Bol r) s = None.
Proof.
  induction s as [|c s IH]; intros Hlen.
  - rewrite search_unfold. unfold match_at. rewrite run_Seq, run_Bol.
    by assert ((length (@nil N) =? length input)%nat = false) as -> by (apply Nat.eqb_neq; lia).
  - rewrite search_unfold. unfold match_at. rewrite run_Seq, run_Bol.
    assert ((length (c :: s) =? length input)%nat = false) as -> by (apply Nat.eqb_neq; lia).
    apply IH. simpl in Hlen. lia.
Qed.

Lemma drop_take_while {A} (p : A → bool) (l : list A) :
  drop (length (take_while p l)) l = drop_while p l.
Proof.
  induction l as [|x l IH]; [done|]. simpl. by destruct (p x).
Qed.

Lemma length_drop_while {A} (p : A → bool) (l : list A) :
  (length (drop_while p l) ≤ length l)%nat.
Proof.
  induction l as [|x l IH]; simpl; [lia|]. destruct (p x); simpl; lia.
Qed.

(** [offsetByte]: the number of [_] at the start of the text. *)
Lemma leading_newlines_match text :
  default 0%nat ((λ m, length (matched m)) <$> Symbol_match text Page.leading_newlines_re)
  = length (take_while (λ c, (c =? 95)%N) text).
Proof.
  unfold Symbol_match, Page.leading_newlines_re.
  rewrite search_unfold. unfold match_at at 1.
  rewrite run_Seq, run_Bol, Nat.eqb_refl, run_Group, run_Plus.
  destruct text as [|c s']; [done|].
  destruct (c =? 95)%N eqn:Hc.
  - rewrite star_longest by done. simpl. rewrite Hc.
    pose proof (length_drop_while (λ c, (c =? 95)%N) s') as Hle.
    pose proof (take_drop_while (λ c, (c =? 95)%N) s') as Htake.
    replace (S (length s') - length (drop_while (λ c, (c =? 95)%N) s'))%nat
      with (S (length s' - length (drop_while (λ c, (c =? 95)%N) s'))) by lia.
    simpl. by rewrite Htake.
  - simpl. rewrite Hc. rewrite search_Bol_later by (simpl; lia). done.
Qed.

Lemma all_last {A} (P : A → Prop) (l : list A) x :
  Forall P l → last l = Some x → P x.
Proof.
  intros Hall Hlast. apply last_Some in Hlast as [l' ->].
  apply Forall_app in Hall as [_ Hx]. by inversion Hx.
Qed.

Lemma last_cons_cons_ne {A} (x y : A) l z :
  last (y :: l) ≠ Some z → last (x :: y :: l) ≠ Some z.
Proof. by rewrite (last_cons_cons x). Qed.

(** [/ +$/] matches nowhere in a string that does not end with a space. *)
Lemma search_trailing_spaces input s :
  last s ≠ Some 32%N → search input Page.trailing_spaces_re s = None.
Proof.
  induction s as [|c s IH]; intros Hlast.
  - done.
  - rewrite search_unfold.
    assert (match_at input Page.trailing_spaces_re (c :: s) = None) as ->.
    { unfold match_at, Page.trailing_spaces_re. rewrite run_Seq, run_Plus.
      destruct (c =? 32)%N eqn:Hc; [|done].
      rewrite star_greedy by done. rewrite run_Eol.
      destruct (drop_while (λ c, (c =? 32)%N) s) as [|? ?] eqn:Hdrop; [|done].
      exfalso. apply drop_while_all in Hdrop.
      destruct (last (c :: s)) as [z|] eqn:Hz; [|by apply last_None in Hz].
      assert ((z =? 32)%N = true) as Hz32.
      { apply (all_last (λ x, (x =? 32)%N = true) (c :: s) z); [by constructor|done]. }
      apply N.eqb_eq in Hz32. by subst z. }
    apply IH. destruct s as [|c' s]; [done|].
    by rewrite last_cons_cons in Hlast.
Qed.

Lemma replace_trailing_spaces line rep :
  last line ≠ Some 32%N → Symbol_replace line Page.trailing_spaces_re rep = line.
Proof.
  intros Hlast. unfold Symbol_replace, Symbol_match.
  by rewrite search_trailing_spaces.
Qed.

(** A string pattern that does not occur is not replaced. *)
Lemma String_replace_absent pat rep s :
  String_includes pat s = false → JS.String_replace pat rep s = s.
Proof.
  induction s as [|c s IH]; simpl; intros Hinc.
  - apply orb_false_elim in Hinc as [-> _]. done.
  - apply orb_false_elim in Hinc as [-> Hinc]. by rewrite IH.
Qed.

Lemma String_includes_unit c s :
  c ∉ s → String_includes [c] s = false.
Proof.
  induction s as [|x s IH]; intros Hc; [done|].
  apply not_elem_of_cons in Hc as [Hx Hs]. simpl.
  rewrite IH by done. apply N.eqb_neq in Hx. rewrite Hx. done.
Qed.

(** The first [~] becomes the escape. *)
Lemma String_replace_first_unit c rep pre post :
  c ∉ pre → JS.String_replace [c] rep (pre ++ c :: post) = pre ++ rep ++ post.
Proof.
  induction pre as [|x pre IH]; intros Hc.
  - simpl. rewrite N.eqb_refl. simpl. by rewrite drop_0.
  - apply not_elem_of_cons in Hc as [Hx Hpre]. simpl.
    apply N.eqb_neq in Hx. rewrite Hx. simpl. by rewrite IH.
Qed.

Lemma is_prefix_two a b x s :
  is_prefix [a; b] (x :: s)
  = (a =? x)%N && match s with y :: _ => (b =? y)%N | [] => false end.
Proof. destruct s; cbn [is_prefix]; by rewrite ?andb_true_r. Qed.

Lemma String_includes_cons pat x s :
  String_includes pat (x :: s) = is_prefix pat (x :: s) || String_includes pat s.
Proof. done. Qed.

Lemma String_replace_cons pat rep x s :
  JS.String_replace pat rep (x :: s)
  = if is_prefix pat (x :: s) then rep ++ drop (length pat) (x :: s)
    else x :: JS.String_replace pat rep s.
Proof. done. Qed.

(** The first escape becomes the [~] again, when no escape comes before it. *)
Lemma String_replace_escape pre post :
  String_includes [92%N; 82%N] pre = false →
  JS.String_replace [92%N; 82%N] [126%N] (pre ++ [92%N; 82%N] ++ post)
  = pre ++ [126%N] ++ post.
Proof.
  induction pre as [|x pre IH]; intros Hinc.
  - done.
  - rewrite String_includes_cons in Hinc.
    apply orb_false_elim in Hinc as [Hx Hinc].
    change ((x :: pre) ++ [92%N; 82%N] ++ post) with (x :: (pre ++ [92%N; 82%N] ++ post)).
    rewrite String_replace_cons.
    assert (is_prefix [92%N; 82%N] (x :: (pre ++ [92%N; 82%N] ++ post)) = false) as ->.
    { rewrite is_prefix_two in Hx |- *.
      destruct (92 =? x)%N; [|done].
      destruct pre as [|y pre]; [done|]. exact Hx. }
    by rewrite IH.
Qed.

End byte_codec_patterns.

(** ** The byte codec of a page *)

Section byte_codec.

Lemma Array_map_Return {A B} (f : A → completion B) (g : A → B) l :
  (∀ x, f x = Return (g x)) → Array_map f l = Return (g <$> l).
Proof.
  intros Hf. induction l as [|x l IH]; [done|].
  simpl. by rewrite Hf, IH.
Qed.

(** [toBytes] always returns: the four header bytes, then the bytes of
    the lines with a newline byte between them. *)
Lemma toBytes_layout p :
  Page.toBytes p
  = Return
      ([to_uint8 (Int <$> Page._ANIMATE_ENCODING !! Page.animate_toString (Page.animate p));
        (Z.of_nat (length (take_while (λ c, (c =? 95)%N) (Page.text p))) mod 256)%Z;
        to_uint8 (Some (Page.delay p));
        0x00%Z]
       ++ Array_join [0x0A%Z]
            (line_bytes <$> String_split (str "_")
                              (drop_while (λ c, (c =? 95)%N) (Page.text p)))).
Proof.
  unfold Page.toBytes. rewrite leading_newlines_match, drop_take_while.
  rewrite (Array_map_Return _
             (λ line, (λ c, Int <$> Page._TEXT_ENCODING !! [c])
                        <$> JS.String_replace Page._RIGHT_CHAR_DECODED
                              Page._RIGHT_CHAR_ENCODED line))
    by (intros line; apply encodeText_returns).
  cbn [mbind completion_bind]. f_equal.
  rewrite reduce_slice_join. unfold Buffer_from at 1.
  rewrite fmap_app. f_equal.
  rewrite Array_join_fmap, <- list_fmap_compose. done.
Qed.

Lemma replicate_join n (c : N) : Array_join [] (replicate n [c]) = replicate n c.
Proof.
  induction n as [|n IH]; [done|].
  destruct n as [|n]; [done|].
  change (replicate (S (S n)) [c]) with ([c] :: replicate (S n) [c]).
  rewrite Array_join_cons by done. by rewrite IH.
Qed.

(** [fromBytes] on a well-formed header and on lines joined with the
    newline byte, when the last line is not empty (or is the only one). *)
Lemma fromBytes_layout b0 animate offset delay (blines : list (list Z)) bline :
  Page._ANIMATE_DECODING !! b0 = Some animate →
  Forall (λ l, 0x0A%Z ∉ l) (blines ++ [bline]) →
  (bline = [] → blines = []) →
  Page.fromBytes (b0 :: offset :: delay :: 0x00%Z :: Array_join [0x0A%Z] (blines ++ [bline]))
  = Return (Page.new (Page.Str animate) (Int delay)
              (replicate (Z.to_nat offset) 95%N
               ++ Array_join (str "_") (line_text <$> (blines ++ [bline])))).
Proof.
  intros Hanimate Hnl Hlast. unfold Page.fromBytes. rewrite Hanimate.
  cbn [negb Z.eqb].
  rewrite pop_newlines_id.
  - destruct (blines ++ [bline]) as [|l ls] eqn:Hlines; [by destruct blines|].
    pose proof (split_loop_join 0x0A%Z ls l [] [] Hnl) as Hsplit.
    unfold Page._NEWLINE_BYTESEQ.
    destruct (foldl _ _ (Array_join [0x0A%Z] (l :: ls))) as [lines line].
    simpl in Hsplit. rewrite Hsplit.
    unfold Page._NEWLINE_CHAR. change (str "_") with [95%N].
    by rewrite replicate_join.
  - intros b Hb. unfold Page._NEWLINE_BYTESEQ. apply Z.eqb_neq. intros ->.
    destruct bline as [|x bline _] using rev_ind.
    + rewrite (Hlast eq_refl) in Hb. done.
    + assert (Array_join [0x0A%Z] (blines ++ [bline ++ [x]])
              = Array_join [0x0A%Z] (blines ++ [bline]) ++ [x]) as Hjoin.
      { clear. induction blines as [|l blines IH]; [done|].
        rewrite <- !app_comm_cons.
        rewrite !Array_join_cons by (by destruct blines).
        rewrite IH. by rewrite <- !app_assoc. }
      rewrite Hjoin, last_snoc in Hb. injection Hb as ->.
      apply Forall_app in Hnl as [_ Hnl]. inversion Hnl as [|? ? Hx _]; subst.
      apply Hx. rewrite elem_of_app, list_elem_of_singleton. by right.
Qed.

End byte_codec.

(** ** Encoding a page and decoding it again *)

Section round_trip.

Lemma take_while_all {A} (p : A → bool) (l : list A) :
  Forall (λ x, p x = true) l → take_while p l = l.
Proof.
  induction 1 as [|x l Hx _ IH]; [done|]. simpl. by rewrite Hx, IH.
Qed.

Lemma take_while_replicate (c : N) (l : list N) :
  take_while (λ x, (x =? c)%N) l = replicate (length (take_while (λ x, (x =? c)%N) l)) c.
Proof.
  induction l as [|x l IH]; [done|]. simpl.
  destruct (x =? c)%N eqn:Hx; [|done].
  apply N.eqb_eq in Hx. subst x. simpl. by rewrite <- IH.
Qed.

(** The bytes of permitted characters decode to these characters, and
    none of them is the newline byte. *)
Lemma codec_units (l : jsstring) :
  Forall (λ c, is_Some (Page._TEXT_ENCODING !! [c])) l →
  Page.decodeText (Buffer_from ((λ c, Int <$> Page._TEXT_ENCODING !! [c]) <$> l)) = l
  ∧ (0x0A%Z ∉ Buffer_from ((λ c, Int <$> Page._TEXT_ENCODING !! [c]) <$> l))
  ∧ length (Buffer_from ((λ c, Int <$> Page._TEXT_ENCODING !! [c]) <$> l)) = length l.
Proof.
  intros Hall. rewrite decodeText_units. unfold Buffer_from.
  rewrite <- !list_fmap_compose, length_fmap. split; [|split; [|done]].
  - rewrite <- (list_fmap_id l) at 2. apply Forall_fmap_ext_1.
    apply (Forall_impl _ _ _ Hall). intros c [b Hb]. simpl. rewrite Hb. simpl.
    destruct (TEXT_ENCODING_entry _ _ Hb) as (_ & Hdec & Hrange & _).
    rewrite Z.mod_small by lia. by rewrite Hdec.
  - intros Hin. apply list_elem_of_fmap in Hin as (c & Hc & Hcl).
    rewrite Forall_forall in Hall. destruct (Hall c Hcl) as [b Hb].
    simpl in Hc. rewrite Hb in Hc. simpl in Hc.
    destruct (TEXT_ENCODING_entry _ _ Hb) as (_ & _ & Hrange & Hnl).
    rewrite Z.mod_small in Hc by lia. by subst b.
Qed.

Lemma escape_units_permitted :
  Forall (λ c, is_Some (Page._TEXT_ENCODING !! [c])) [92%N; 82%N].
Proof.
  apply Forall_cons. split; [exists 0x5C%Z; by vm_compute|].
  apply Forall_cons. split; [exists 0x52%Z; by vm_compute|].
  apply Forall_nil_2.
Qed.

(** One line through [toBytes] and back through [fromBytes]. *)
Lemma line_round_trip line :
  Forall Spec.valid_char line → 95%N ∉ line → Spec.line_round_trips line →
  line_text (line_bytes line) = line
  ∧ (0x0A%Z ∉ line_bytes line)
  ∧ (line_bytes line = [] → line = []).
Proof.
  intros Hvalid Hus (Hone & Hlast & Hescape).
  unfold line_text, line_bytes, Page._RIGHT_CHAR_DECODED, Page._RIGHT_CHAR_ENCODED.
  change (str "~") with [126%N]. change (str "\R") with [92%N; 82%N] in *.
  assert (∀ l, Forall Spec.valid_char l → 95%N ∉ l → 126%N ∉ l →
               Forall (λ c, is_Some (Page._TEXT_ENCODING !! [c])) l) as Hpermitted.
  { intros l Hl H95 H126. rewrite Forall_forall in Hl |- *. intros c Hc.
    destruct (Hl c Hc) as [Hin | [-> | ->]]; done. }
  destruct (decide (126%N ∈ line)) as [Hin | Hnotin].
  - apply list_elem_of_split_l in Hin as (pre & post & -> & Hpre).
    pose proof (Hone pre post eq_refl) as Hpost.
    apply Forall_app in Hvalid as [Hvpre Hvpost].
    inversion Hvpost as [|? ? _ Hvpost']; subst. clear Hvpost.
    apply not_elem_of_app in Hus as [Huspre Huspost].
    apply not_elem_of_cons in Huspost as [_ Huspost].
    rewrite String_replace_first_unit by done.
    assert (Forall (λ c, is_Some (Page._TEXT_ENCODING !! [c])) (pre ++ [92%N; 82%N] ++ post))
      as Hall.
    { rewrite !Forall_app. split; [by apply Hpermitted|].
      split; [apply escape_units_permitted|by apply Hpermitted]. }
    destruct (codec_units _ Hall) as (Hdec & Hnl & Hlen).
    split; [|split; [done|]].
    + rewrite Hdec, replace_trailing_spaces.
      * apply String_replace_escape.
        assert (take_while (λ c, negb (c =? 126)%N) (pre ++ 126%N :: post) = pre) as Htake.
        { apply take_while_app_stop; [|done].
          rewrite Forall_forall. intros c Hc. apply negb_true_iff, N.eqb_neq.
          by intros ->. }
        by rewrite Htake in Hescape.
      * destruct post as [|x post _] using rev_ind.
        { rewrite app_nil_r. change (pre ++ [92%N; 82%N]) with (pre ++ [92%N] ++ [82%N]).
          rewrite app_assoc, last_snoc. done. }
        { rewrite !app_assoc, last_snoc.
          change (pre ++ 126%N :: post ++ [x]) with (pre ++ (126%N :: post) ++ [x]) in Hlast.
          by rewrite app_assoc, last_snoc in Hlast. }
    + intros Hnil. apply (f_equal length) in Hnil. rewrite Hlen in Hnil.
      rewrite !length_app in Hnil. simpl in Hnil. lia.
  - rewrite (String_replace_absent [126%N]) by (by apply String_includes_unit).
    pose proof (Hpermitted line Hvalid Hus Hnotin) as Hall.
    destruct (codec_units _ Hall) as (Hdec & Hnl & Hlen).
    split; [|split; [done|]].
    + rewrite Hdec, replace_trailing_spaces by done.
      apply String_replace_absent.
      rewrite take_while_all in Hescape; [done|].
      rewrite Forall_forall. intros c Hc. apply negb_true_iff, N.eqb_neq.
      by intros ->.
    + intros Hnil. apply (f_equal length) in Hnil. rewrite Hlen in Hnil.
      by destruct line.
Qed.

Lemma animate_bytes a :
  Spec.valid_animate a →
  ∃ b, Page._ANIMATE_ENCODING !! Page.animate_toString a = Some b
       ∧ (0 ≤ b < 256)%Z
       ∧ Page._ANIMATE_DECODING !! b = Some (Page.animate_toString a).
Proof.
  intros [-> | [-> | ->]]; eexists; (split; [by vm_compute|split; [lia|by vm_compute]]).
Qed.

End round_trip.

Section round_trip_properties.

(** C2, as amended. For every valid page whose text has at most 255
    leading [_], does not end with [_] after them, and whose lines have at
    most one [~], no space at the end and no escape [\R] before the [~]:
    [toBytes] returns bytes that [fromBytes] decodes to a page with the
    same animation letter, the same delay and the same text. *)
Theorem C2_fromBytes_toBytes p :
  Spec.valid_Page p → Spec.text_round_trips (Page.text p) →
  ∃ bytes q, Page.toBytes p = Return bytes
             ∧ Page.fromBytes bytes = Return q
             ∧ Spec.Page_equiv q p.
Proof.
  destruct p as [animate delay text].
  intros (Hanimate & (z & Hdelay & Hz) & Hvalid) (Hoffset & Hend & Hlines).
  cbn [Page.animate Page.delay Page.text] in *. subst delay.
  rewrite toBytes_layout. cbn [Page.animate Page.delay Page.text].
  destruct (animate_bytes animate Hanimate) as (b0 & -> & Hb0 & Hdec).
  set (n := length (take_while (λ c, (c =? 95)%N) text)) in *.
  set (rest := drop_while (λ c, (c =? 95)%N) text) in *.
  assert (text = replicate n 95%N ++ rest) as Htext.
  { rewrite <- (take_drop_while_app (λ c, (c =? 95)%N) text) at 1.
    by rewrite take_while_replicate. }
  assert (Forall Spec.valid_char rest) as Hvrest.
  { rewrite Htext in Hvalid. by apply Forall_app in Hvalid as [_ ?]. }
  change (str "_") with [95%N] in *. rewrite String_split_unit in *.
  destruct (split_from_last 95%N rest []) as (ls & l & Hsplit & Hl & Hls).
  pose proof (split_from_Forall Spec.valid_char 95%N rest [] (Forall_nil_2 _) Hvrest) as Hvl.
  pose proof (split_from_no_sep 95%N rest [] (not_elem_of_nil _)) as Hnl.
  pose proof (join_split_from 95%N rest []) as Hjoin.
  rewrite Hsplit in Hlines, Hvl, Hnl, Hjoin |- *.
  assert (Forall (λ line, line_text (line_bytes line) = line
                          ∧ (0x0A%Z ∉ line_bytes line)
                          ∧ (line_bytes line = [] → line = [])) (ls ++ [l])) as Hround.
  { rewrite Forall_forall in Hlines, Hvl, Hnl |- *. intros line Hline.
    apply line_round_trip; auto. }
  rewrite fmap_app. cbn [fmap list_fmap].
  eexists. eexists. split; [reflexivity|].
  cbn [to_uint8 fmap option_fmap option_map].
  rewrite !Z.mod_small by lia. cbn [app].
  rewrite (fromBytes_layout b0 (Page.animate_toString animate)); [| done | |].
  - split; [reflexivity|]. unfold Spec.Page_equiv.
    cbn [Page.animate Page.delay Page.text Page.animate_toString].
    split; [done|]. split; [done|].
    rewrite Nat2Z.id, Htext at 1. f_equal.
    change [line_bytes l] with (line_bytes <$> [l]).
    rewrite <- fmap_app, <- list_fmap_compose.
    change (str "_") with [95%N]. simpl in Hjoin.
    rewrite <- Hjoin. f_equal.
    rewrite <- (list_fmap_id (ls ++ [l])) at 2. apply Forall_fmap_ext_1.
    apply (Forall_impl _ _ _ Hround). by intros line (? & _).
  - change [line_bytes l] with (line_bytes <$> [l]).
    rewrite <- (fmap_app line_bytes ls [l]). apply Forall_fmap.
    apply (Forall_impl _ _ _ Hround). by intros line (_ & ? & _).
  - intros Hnil.
    assert (l = []) as ->.
    { apply Forall_app in Hround as [_ Hround]. inversion Hround as [|? ? (_ & _ & Hempty) _].
      by apply Hempty. }
    destruct (Hl eq_refl) as [Hrest | Hrest]; [|exact (False_ind _ (Hend Hrest))].
    simpl in Hrest. rewrite Hrest in Hsplit.
    apply (f_equal length) in Hsplit. rewrite length_app in Hsplit.
    destruct ls as [|? ?]; [reflexivity|]. simpl in Hsplit. lia.
Qed.

Lemma C2_fromBytes_toBytes_witness :
  Spec.valid_Page (Page.new (Page.Obj PageAnimate.VSCROLL) (Int 35)
                     (str "_12:34 CITY~5_Limited \Express"))
  ∧ Spec.text_round_trips (str "_12:34 CITY~5_Limited \Express")
  ∧ ∃ bytes q,
      Page.toBytes (Page.new (Page.Obj PageAnimate.VSCROLL) (Int 35)
                      (str "_12:34 CITY~5_Limited \Express")) = Return bytes
      ∧ Page.fromBytes bytes = Return q
      ∧ Spec.Page_equiv q (Page.new (Page.Obj PageAnimate.VSCROLL) (Int 35)
                             (str "_12:34 CITY~5_Limited \Express")).
Proof.
  assert (Spec.valid_Page (Page.new (Page.Obj PageAnimate.VSCROLL) (Int 35)
                             (str "_12:34 CITY~5_Limited \Express"))) as Hvalid.
  { split; [right; left; reflexivity|].
    split; [exists 35%Z; split; [reflexivity|lia]|].
    apply Forall_forall. intros c Hc. apply list_elem_of_In in Hc.
    vm_compute in Hc.
    repeat (destruct Hc as [<- | Hc];
            [first [right; left; reflexivity | right; right; reflexivity
                   | left; eexists; vm_compute; reflexivity]|]).
    destruct Hc. }
  assert (Spec.text_round_trips (str "_12:34 CITY~5_Limited \Express")) as Hsafe.
  { split; [vm_compute; lia|]. split; [by vm_compute|].
    change (Forall Spec.line_round_trips [str "12:34 CITY~5"; str "Limited \Express"]).
    apply Forall_cons. split.
    - split; [|split; [by vm_compute|by vm_compute]].
      intros pre post Heq Hin.
      assert (length (filter (λ c, c = 126%N) (str "12:34 CITY~5")) = 1%nat) as Hcount
        by (by vm_compute).
      rewrite Heq, filter_app, filter_cons_True, length_app in Hcount by done.
      simpl in Hcount.
      assert (126%N ∈ filter (λ c, c = 126%N) post) as Hin' by (by apply list_elem_of_filter).
      destruct (filter (λ c, c = 126%N) post); [by apply elem_of_nil in Hin'|].
      simpl in Hcount. lia.
    - apply Forall_cons. split; [|apply Forall_nil_2].
      split; [|split; [by vm_compute|by vm_compute]].
      intros pre post Heq Hin.
      assert (126%N ∈ str "Limited \Express") as Hin'.
      { rewrite Heq, elem_of_app, elem_of_cons. right. by right. }
      apply list_elem_of_In in Hin'. vm_compute in Hin'.
      repeat (destruct Hin' as [Hin' | Hin']; [discriminate Hin'|]). destruct Hin'. }
  split; [exact Hvalid|]. split; [exact Hsafe|].
  exact (C2_fromBytes_toBytes _ Hvalid Hsafe).
Defined.

(** C2, as stated, fails: the page with the text "a_" is valid and holds
    no glyph of a non-canonical byte, and its bytes decode to the text "a". *)
Lemma C2_fromBytes_toBytes_counterexample :
  Spec.valid_Page (Page.new (Page.Obj PageAnimate.NONE) (Int 20) (str "a_"))
  ∧ (0x2500%N ∉ str "a_") ∧ (0x2594%N ∉ str "a_")
  ∧ Page.toBytes (Page.new (Page.Obj PageAnimate.NONE) (Int 20) (str "a_"))
    = Return [0x00%Z; 0x00%Z; 20%Z; 0x00%Z; 0x61%Z; 0x0A%Z]
  ∧ Page.fromBytes [0x00%Z; 0x00%Z; 20%Z; 0x00%Z; 0x61%Z; 0x0A%Z]
    = Return (Page.new (Page.Str (str "N")) (Int 20) (str "a"))
  ∧ ¬ Spec.Page_equiv (Page.new (Page.Str (str "N")) (Int 20) (str "a"))
        (Page.new (Page.Obj PageAnimate.NONE) (Int 20) (str "a_")).
Proof.
  split; [|split; [|split; [|split; [|split]]]].
  - split; [left; reflexivity|].
    split; [exists 20%Z; split; [reflexivity|lia]|].
    apply Forall_cons. split; [left; exists 0x61%Z; by vm_compute|].
    apply Forall_cons. split; [right; right; reflexivity|apply Forall_nil_2].
  - intros Hin. apply list_elem_of_In in Hin. vm_compute in Hin.
    destruct Hin as [H | [H | []]]; discriminate H.
  - intros Hin. apply list_elem_of_In in Hin. vm_compute in Hin.
    destruct Hin as [H | [H | []]]; discriminate H.
  - by vm_compute.
  - by vm_compute.
  - intros (_ & _ & Htext). vm_compute in Htext. discriminate Htext.
Qed.

(** The other texts that do not come back: a space at the end of a line
    comes back as the text "undefined", a second [~] as U+FFFD, an escape
    typed in the text as [~], and 256 leading [_] as none. *)
Lemma fromBytes_toBytes_other_failures :
  (Page.toBytes (Page.new (Page.Obj PageAnimate.NONE) (Int 20) (str "hi "))
     ≫= Page.fromBytes)
  = Return (Page.new (Page.Str (str "N")) (Int 20) (str "hiundefined"))
  ∧ (Page.toBytes (Page.new (Page.Obj PageAnimate.NONE) (Int 20) (str "a~b~c"))
       ≫= Page.fromBytes)
    = Return (Page.new (Page.Str (str "N")) (Int 20) (str "a~b" ++ [0xFFFD%N] ++ str "c"))
  ∧ (Page.toBytes (Page.new (Page.Obj PageAnimate.NONE) (Int 20) (str "x\Ry"))
       ≫= Page.fromBytes)
    = Return (Page.new (Page.Str (str "N")) (Int 20) (str "x~y"))
  ∧ (Page.toBytes (Page.new (Page.Obj PageAnimate.NONE) (Int 20) (replicate 256 95%N))
       ≫= Page.fromBytes)
    = Return (Page.new (Page.Str (str "N")) (Int 20) []).
Proof. repeat split; by vm_compute. Qed.

(** Where a line has at most one [~], replacing the first is replacing
    every one. *)
Lemma escape_first_is_every line :
  (∀ pre post, line = pre ++ 126%N :: post → 126%N ∉ post) →
  JS.String_replace Page._RIGHT_CHAR_DECODED Page._RIGHT_CHAR_ENCODED line
  = Spec.escape_every_marker line.
Proof.
  intros Hone. unfold Page._RIGHT_CHAR_DECODED, Page._RIGHT_CHAR_ENCODED.
  change (str "~") with [126%N].
  assert (∀ l, 126%N ∉ l → Spec.escape_every_marker l = l) as Hnone.
  { induction l as [|c l IH]; intros Hl; [done|].
    apply not_elem_of_cons in Hl as [Hc Hl].
    unfold Spec.escape_every_marker in *. rewrite fmap_cons.
    change (mjoin (?x :: ?r)) with (x ++ mjoin r). rewrite IH by done.
    assert ((c =? 126)%N = false) as -> by (apply N.eqb_neq; congruence).
    done. }
  destruct (decide (126%N ∈ line)) as [Hin | Hnotin].
  - apply list_elem_of_split_l in Hin as (pre & post & -> & Hpre).
    rewrite String_replace_first_unit by done.
    unfold Spec.escape_every_marker. rewrite fmap_app, join_app, fmap_cons.
    change (mjoin (?x :: ?r)) with (x ++ mjoin r). rewrite N.eqb_refl.
    fold (Spec.escape_every_marker pre). fold (Spec.escape_every_marker post).
    rewrite !Hnone; [done| |done]. by apply (Hone pre post).
  - rewrite (String_replace_absent [126%N]) by (by apply String_includes_unit).
    by rewrite Hnone.
Qed.

Lemma encodes_permitted (l : jsstring) :
  Forall (λ c, is_Some (Page._TEXT_ENCODING !! [c])) l →
  Spec.encodes l (Buffer_from ((λ c, Int <$> Page._TEXT_ENCODING !! [c]) <$> l)).
Proof.
  unfold Spec.encodes, Buffer_from. induction 1 as [|c l [b Hb] _ IH]; [constructor|].
  rewrite !fmap_cons. constructor; [|exact IH].
  rewrite Hb. simpl.
  destruct (TEXT_ENCODING_entry _ _ Hb) as (_ & _ & Hrange & _).
  by rewrite Z.mod_small by lia.
Qed.

(** On a line with at most one [~], the bytes that [toBytes] writes are
    the encoding of the line with every [~] escaped. *)
Lemma line_bytes_as_specified line :
  Forall Spec.valid_char line → 95%N ∉ line →
  (∀ pre post, line = pre ++ 126%N :: post → 126%N ∉ post) →
  Spec.encodes (Spec.escape_every_marker line) (line_bytes line).
Proof.
  intros Hvalid Hus Hone. unfold line_bytes.
  rewrite escape_first_is_every by done.
  apply encodes_permitted. unfold Spec.escape_every_marker.
  clear Hone. induction Hvalid as [|c l Hc _ IH]; [constructor|].
  apply not_elem_of_cons in Hus as [Hc95 Hus].
  rewrite fmap_cons. change (mjoin (?x :: ?r)) with (x ++ mjoin r).
  apply Forall_app. split; [|by apply IH].
  destruct (c =? 126)%N eqn:Hc126; [apply escape_units_permitted|].
  apply N.eqb_neq in Hc126. apply Forall_cons. split; [|apply Forall_nil_2].
  destruct Hc as [Hin | [-> | ->]]; done.
Qed.

(** X21. Where the text has at most 255 leading [_] and every line at most one
    [~], [toBytes] returns what the specification describes: the protocol
    byte of the animation, the number of leading [_], the delay, a zero,
    and the encodings of the escaped lines with a newline byte between
    them. *)
Lemma toBytes_as_specified p :
  Spec.valid_Page p →
  (length (take_while (λ c, (c =? 95)%N) (Page.text p)) ≤ 255)%nat →
  Forall (λ line, ∀ pre post, line = pre ++ 126%N :: post → 126%N ∉ post)
    (String_split (str "_") (drop_while (λ c, (c =? 95)%N) (Page.text p))) →
  ∃ b0 z body,
    Page._ANIMATE_ENCODING !! Page.animate_toString (Page.animate p) = Some b0
    ∧ Page.delay p = Int z
    ∧ Forall2 (λ line bytes, Spec.encodes (Spec.escape_every_marker line) bytes)
        (String_split (str "_") (drop_while (λ c, (c =? 95)%N) (Page.text p))) body
    ∧ Page.toBytes p
      = Return ([b0; Z.of_nat (length (take_while (λ c, (c =? 95)%N) (Page.text p))); z; 0x00%Z]
                ++ Array_join [0x0A%Z] body).
Proof.
  destruct p as [animate delay text].
  intros (Hanimate & (z & Hdelay & Hz) & Hvalid) Hoffset Hone.
  cbn [Page.animate Page.delay Page.text] in *. subst delay.
  destruct (animate_bytes animate Hanimate) as (b0 & Hb0 & Hrange & _).
  exists b0, z,
    (line_bytes <$> String_split (str "_") (drop_while (λ c, (c =? 95)%N) text)).
  split; [done|]. split; [done|]. split.
  - apply Forall2_fmap_r, Forall_Forall2_diag.
    change (str "_") with [95%N] in *. rewrite String_split_unit in *.
    assert (Forall Spec.valid_char (drop_while (λ c, (c =? 95)%N) text)) as Hvrest.
    { rewrite <- (take_drop_while_app (λ c, (c =? 95)%N) text) in Hvalid.
      by apply Forall_app in Hvalid as [_ ?]. }
    pose proof (split_from_Forall Spec.valid_char 95%N _ [] (Forall_nil_2 _) Hvrest) as Hvl.
    pose proof (split_from_no_sep 95%N (drop_while (λ c, (c =? 95)%N) text) []
                  (not_elem_of_nil _)) as Hnl.
    rewrite Forall_forall in Hone, Hvl, Hnl |- *. intros line Hline.
    apply line_bytes_as_specified; [by apply Hvl|by apply Hnl|by apply Hone].
  - rewrite toBytes_layout. cbn [Page.animate Page.delay Page.text].
    rewrite Hb0. cbn [to_uint8 fmap option_fmap option_map].
    by rewrite !Z.mod_small by lia.
Qed.

(** The example of the specification. *)
Lemma toBytes_example :
  (Page.fromStr (str "V35^_Hello World") None None ≫= Page.toBytes)
  = Return [0x1D%Z; 0x01%Z; 35%Z; 0x00%Z;
            0x48%Z; 0x65%Z; 0x6c%Z; 0x6c%Z; 0x6f%Z; 0x20%Z;
            0x57%Z; 0x6f%Z; 0x72%Z; 0x6c%Z; 0x64%Z].
Proof. by vm_compute. Qed.

(** C1 (the code departs from the specification). On the text "a~b~c" [toBytes]
    escapes the first [~] only: the second one is not in the encode table,
    leaves a hole in the array of [encodeText] and becomes the byte 0x00,
    where the specification has the two bytes of a second escape. *)
Theorem C1_toBytes_second_marker :
  Page.toBytes (Page.new (Page.Obj PageAnimate.NONE) (Int 20) (str "a~b~c"))
  = Return [0x00%Z; 0x00%Z; 20%Z; 0x00%Z;
            0x61%Z; 0x5C%Z; 0x52%Z; 0x62%Z; 0x00%Z; 0x63%Z]
  ∧ Spec.escape_every_marker (str "a~b~c") = str "a\Rb\Rc"
  ∧ (Page.encodeText (str "a\Rb\Rc") ≫= λ bytes, Return (Buffer_from bytes))
    = Return [0x61%Z; 0x5C%Z; 0x52%Z; 0x62%Z; 0x5C%Z; 0x52%Z; 0x63%Z].
Proof. repeat split; by vm_compute. Qed.

End round_trip_properties.

(** * Further properties of the code *)

(** ** More on the character codec *)

Section codec_more.

(** X1. [encodeText] returns for every text and never throws: one slot for
    every unit of the text, in order, holding the byte of the encode table
    or, for a unit without entry, a hole. *)
Theorem encodeText_slots text :
  Page.encodeText text
  = Return ((λ c, Int <$> Page._TEXT_ENCODING !! [c]) <$> text).
Proof. apply encodeText_returns. Qed.

(** X2. Both codec functions work unit by unit: decoding a concatenation
    is concatenating the decodings, and the slots that [encodeText] gives
    for a concatenation are the slots of its parts. *)
Theorem codec_concatenation :
  (∀ bytes1 bytes2,
     Page.decodeText (bytes1 ++ bytes2)
     = Page.decodeText bytes1 ++ Page.decodeText bytes2)
  ∧ (∀ text1 text2,
       Page.encodeText (text1 ++ text2)
       = (slots1 ← Page.encodeText text1;
          slots2 ← Page.encodeText text2;
          Return (slots1 ++ slots2))).
Proof.
  split.
  - intros bytes1 bytes2. by rewrite !decodeText_units, fmap_app.
  - intros text1 text2. rewrite !encodeText_returns.
    cbn [mbind completion_bind]. by rewrite fmap_app.
Qed.

(** X3. A text of permitted characters survives [encodeText], the
    conversion of the slots to bytes and [decodeText]; none of its bytes
    is the newline byte. *)
Theorem decodeText_encodeText text :
  Forall (λ c, is_Some (Page._TEXT_ENCODING !! [c])) text →
  ∃ slots, Page.encodeText text = Return slots
           ∧ Page.decodeText (Buffer_from slots) = text
           ∧ (Page._NEWLINE_BYTESEQ ∉ Buffer_from slots).
Proof.
  intros Hall. eexists. split; [apply encodeText_returns|].
  destruct (codec_units text Hall) as (Hdec & Hnl & _). by split.
Qed.

Lemma decodeText_encodeText_witness :
  Forall (λ c, is_Some (Page._TEXT_ENCODING !! [c])) (str "Hi \")
  ∧ ∃ slots, Page.encodeText (str "Hi \") = Return slots
             ∧ Page.decodeText (Buffer_from slots) = str "Hi \"
             ∧ (Page._NEWLINE_BYTESEQ ∉ Buffer_from slots).
Proof.
  assert (Forall (λ c, is_Some (Page._TEXT_ENCODING !! [c])) (str "Hi \")) as Hall.
  { apply Forall_cons. split; [exists 0x48%Z; by vm_compute|].
    apply Forall_cons. split; [exists 0x69%Z; by vm_compute|].
    apply Forall_cons. split; [exists 0x20%Z; by vm_compute|].
    apply Forall_cons. split; [exists 0x5C%Z; by vm_compute|].
    apply Forall_nil_2. }
  split; [exact Hall|]. exact (decodeText_encodeText _ Hall).
Defined.

(** X4. The encode table is injective, and the decode table is its
    inverse extended by exactly three entries: 0x98 for the light
    horizontal line, 0xA4 and 0xA5 for the upper one eighth block. *)
Theorem text_tables_inverse :
  (∀ c1 c2 b, Page._TEXT_ENCODING !! c1 = Some b →
              Page._TEXT_ENCODING !! c2 = Some b → c1 = c2)
  ∧ (∀ b c, Page._TEXT_DECODING !! b = Some c
            ↔ Page._TEXT_ENCODING !! c = Some b
              ∨ (b = 0x98%Z ∧ c = [0x2500%N])
              ∨ (b = 0xA4%Z ∧ c = [0x2594%N])
              ∨ (b = 0xA5%Z ∧ c = [0x2594%N])).
Proof.
  split.
  - intros c1 c2 b H1 H2.
    destruct (TEXT_ENCODING_entry _ _ H1) as (_ & Hd1 & _).
    destruct (TEXT_ENCODING_entry _ _ H2) as (_ & Hd2 & _).
    congruence.
  - intros b c. split.
    + intros Hbc.
      pose (f := λ (b : Z) (c : jsstring),
              bool_decide (Page._TEXT_ENCODING !! c = Some b)
              || bool_decide (b = 0x98%Z ∧ c = [0x2500%N])
              || bool_decide (b = 0xA4%Z ∧ c = [0x2594%N])
              || bool_decide (b = 0xA5%Z ∧ c = [0x2594%N])).
      assert (f b c = true) as Hf.
      { apply (table_forall f Page._TEXT_DECODING); [by vm_compute|exact Hbc]. }
      unfold f in Hf. clear f Hbc.
      apply orb_prop in Hf as [Hf | Hf];
        [|right; right; right; exact (bool_decide_eq_true_1 _ Hf)].
      apply orb_prop in Hf as [Hf | Hf];
        [|right; right; left; exact (bool_decide_eq_true_1 _ Hf)].
      apply orb_prop in Hf as [Hf | Hf];
        [|right; left; exact (bool_decide_eq_true_1 _ Hf)].
      left. exact (bool_decide_eq_true_1 _ Hf).
    + intros [Henc | [[-> ->] | [[-> ->] | [-> ->]]]].
      * by apply TEXT_ENCODING_entry.
      * by vm_compute.
      * by vm_compute.
      * by vm_compute.
Qed.

(** X5. [decodeText] never yields one of the control characters of the
    page notation ([_], [~] and the caret), whatever the bytes: the byte
    0x5F decodes to the full block, not to [_]. *)
Theorem decodeText_no_control_character (bytes : list Z) :
  (95%N ∉ Page.decodeText bytes) ∧ (126%N ∉ Page.decodeText bytes)
  ∧ (94%N ∉ Page.decodeText bytes).
Proof.
  assert (∀ u, u ∈ Page.decodeText bytes → u ≠ 95%N ∧ u ≠ 126%N ∧ u ≠ 94%N) as Hall.
  { intros u. rewrite decodeText_units. intros Hu.
    apply list_elem_of_fmap in Hu as (b & -> & _).
    destruct (Page._TEXT_DECODING !! b) as [c|] eqn:Hb; [|lia].
    pose (f := λ (b : Z) (c : jsstring),
            match c with
            | [u] => negb (u =? 95)%N && negb (u =? 126)%N && negb (u =? 94)%N
            | _ => false
            end).
    assert (f b c = true) as Hf.
    { apply (table_forall f Page._TEXT_DECODING); [by vm_compute|exact Hb]. }
    unfold f in Hf. clear f Hb.
    destruct c as [|u [|? ?]]; [discriminate Hf| |discriminate Hf].
    lia. }
  split; [|split]; intros Hin; apply Hall in Hin; by destruct Hin as (? & ? & ?).
Qed.

(** X6. The two animation tables are inverse to each other: a letter has
    a protocol byte exactly when that byte decodes to the letter. Only N,
    V and H have one. *)
Theorem animate_tables_inverse s b :
  (Page._ANIMATE_ENCODING !! s = Some b ↔ Page._ANIMATE_DECODING !! b = Some s)
  ∧ (Page._ANIMATE_ENCODING !! s = Some b
     ↔ (s = str "N" ∧ b = 0x00%Z) ∨ (s = str "V" ∧ b = 0x1D%Z)
       ∨ (s = str "H" ∧ b = 0x2F%Z)).
Proof.
  assert (Page._ANIMATE_ENCODING !! s = Some b
          ↔ (s = str "N" ∧ b = 0x00%Z) ∨ (s = str "V" ∧ b = 0x1D%Z)
            ∨ (s = str "H" ∧ b = 0x2F%Z)) as Henc by apply ANIMATE_ENCODING_lookup.
  split; [|exact Henc].
  rewrite Henc, ANIMATE_DECODING_lookup.
  split.
  - intros [[-> ->] | [[-> ->] | [-> ->]]]; reflexivity.
  - destruct (decide (b = 0x2F%Z)) as [->|H1].
    { rewrite bool_decide_eq_true_2 by done. intros [= <-]. by right; right. }
    rewrite (bool_decide_eq_false_2 _ H1).
    destruct (decide (b = 0x1D%Z)) as [->|H2].
    { rewrite bool_decide_eq_true_2 by done. intros [= <-]. by right; left. }
    rewrite (bool_decide_eq_false_2 _ H2).
    destruct (decide (b = 0x00%Z)) as [->|H3].
    { rewrite bool_decide_eq_true_2 by done. intros [= <-]. by left. }
    by rewrite (bool_decide_eq_false_2 _ H3).
Qed.

End codec_more.

(** ** More on the message frames *)

Section framing_more.

(** X7. [PingMessage.fromBytes] never returns a message: it throws on
    every input. The error is the ReferenceError of the constructor
    exactly on the three bytes [address, 0x50, b], and one of the three
    RangeErrors for a wrong length or a wrong header on any other input. *)
Theorem PingMessage_fromBytes_never_returns (bytes : list Z) (address : Z) :
  ∃ e, PingMessage.fromBytes bytes address = Throw e
       ∧ (e = this_not_bound ↔ ∃ b, bytes = [address; 0x50%Z; b])
       ∧ (e = this_not_bound ∨ Spec.FrameMismatch "PingMessage" e).
Proof.
  destruct bytes as [|b0 [|b1 [|b2 [|b3 rest]]]].
  1-3: eexists; split; [reflexivity|];
       (split; [split; [intros H; discriminate H|intros [b H]; discriminate H]
               |right; by left]).
  2: eexists; split; [reflexivity|];
     (split; [split; [intros H; discriminate H|intros [b H]; discriminate H]
             |right; right; by left]).
  rewrite PingMessage_fromBytes_marker. eexists. split; [reflexivity|].
  case_bool_decide as Hm.
  - destruct Hm as [-> ->]. split; [|by left].
    split; [intros _; by exists b2|done].
  - split; [|right; right; by right].
    split; [intros H; discriminate H|].
    intros [b [= -> -> _]]. by destruct Hm.
Qed.



End framing_more.

(** ** More on the page grammar *)

Section grammar_more.

(** X10. [_STR_RE] matches every input, from index 0 to the end. The
    group text always takes part; the groups animate and delay take part
    together, exactly when a prefix of an optional letter, a run of digits
    and a caret starts the input. *)
Theorem STR_RE_matches_every_input input :
  Symbol_match input Page._STR_RE
  = Some {| index := 0;
            matched := input;
            groups := match parse_prefix input with
                      | Some (a, d, t) =>
                          <["text" := t]> (<["delay" := d]> (<["animate" := a]> ∅))
                      | None => <["text" := input]> ∅
                      end |}
  ∧ (∀ a d t, parse_prefix input = Some (a, d, t)
              ↔ input = a ++ d ++ str "^" ++ t ∧ opt_letter a ∧ digit_run d).
Proof.
  split; [apply STR_RE_match|].
  intros a d t. split; [apply parse_prefix_elim|].
  intros (-> & Ha & Hd). by apply parse_prefix_intro.
Qed.

(** X11. [fromStr] never throws, and it only ever cuts a prefix off the
    input: the text of the page is the input itself, or what follows a
    prefix made of an optional letter, a run of digits and a caret. *)
Theorem fromStr_returns_suffix input default_animate default_delay :
  ∃ p pre, Page.fromStr input default_animate default_delay = Return p
           ∧ input = pre ++ Page.text p
           ∧ (pre = [] ∨ ∃ a d, pre = a ++ d ++ str "^" ∧ opt_letter a ∧ digit_run d).
Proof.
  rewrite fromStr_parse.
  destruct (parse_prefix input) as [[[a d] t]|] eqn:Hparse.
  - apply parse_prefix_elim in Hparse as (-> & Ha & Hd).
    eexists. exists (a ++ d ++ str "^"). split; [reflexivity|].
    cbn [Page.text]. split; [by rewrite <- !app_assoc|].
    right. by exists a, d.
  - eexists. exists []. split; [reflexivity|]. split; [done|by left].
Qed.

(** X12. An input without a caret, and so every text of permitted and
    control characters, is taken whole as the text, with the default
    animation and delay. *)
Theorem fromStr_plain_text input default_animate default_delay :
  94%N ∉ input ∨ Forall Spec.valid_char input →
  Page.fromStr input default_animate default_delay
  = Return (Page.new (default (Page.Obj PageAnimate.NONE) default_animate)
                     (default (Int 20) default_delay) input).
Proof.
  intros Hplain.
  assert (94%N ∉ input) as Hno.
  { destruct Hplain as [H | Hvalid]; [exact H|].
    intros Hin. rewrite Forall_forall in Hvalid.
    destruct (Hvalid _ Hin) as [[b Hb] | [H | H]]; [|discriminate H|discriminate H].
    assert (Page._TEXT_ENCODING !! [94%N] = None) as Hnone by (by vm_compute).
    rewrite Hnone in Hb. discriminate Hb. }
  rewrite fromStr_parse.
  destruct (parse_prefix input) as [[[a d] t]|] eqn:Hparse; [|done].
  apply parse_prefix_elim in Hparse as (-> & _ & _).
  exfalso. apply Hno. rewrite !elem_of_app. right. right. by left.
Qed.

Lemma fromStr_plain_text_witness :
  (94%N ∉ str "12:34" ∨ Forall Spec.valid_char (str "12:34"))
  ∧ Page.fromStr (str "12:34") None None
    = Return (Page.new (Page.Obj PageAnimate.NONE) (Int 20) (str "12:34")).
Proof.
  assert (94%N ∉ str "12:34") as Hno.
  { intros Hin. apply list_elem_of_In in Hin. vm_compute in Hin.
    repeat (destruct Hin as [Hin | Hin]; [discriminate Hin|]). destruct Hin. }
  split; [left; exact Hno|].
  exact (fromStr_plain_text (str "12:34") None None (or_introl Hno)).
Defined.

End grammar_more.

(** ** More on the byte codec of a page *)

Section byte_codec_more.

Lemma to_uint8_range v : (0 ≤ to_uint8 v < 256)%Z.
Proof. destruct v as [[z|]|]; simpl; [apply Z.mod_pos_bound| |]; lia. Qed.

Lemma unit_byte_not_newline c :
  to_uint8 (Int <$> Page._TEXT_ENCODING !! [c]) ≠ 0x0A%Z.
Proof.
  destruct (Page._TEXT_ENCODING !! [c]) as [b|] eqn:Hb; [|discriminate].
  destruct (TEXT_ENCODING_entry _ _ Hb) as (_ & _ & Hrange & Hnl).
  simpl. by rewrite Z.mod_small by lia.
Qed.

Lemma line_bytes_no_newline line : 0x0A%Z ∉ line_bytes line.
Proof.
  unfold line_bytes, Buffer_from. rewrite <- list_fmap_compose.
  intros Hin. apply list_elem_of_fmap in Hin as (c & Hc & _).
  symmetry in Hc. by apply unit_byte_not_newline in Hc.
Qed.

Lemma line_bytes_range line : Forall (λ b, (0 ≤ b < 256)%Z) (line_bytes line).
Proof.
  unfold line_bytes, Buffer_from. apply Forall_fmap, Forall_true.
  intros v. apply to_uint8_range.
Qed.

Lemma Array_join_Forall {A} (P : A → Prop) sep (ls : list (list A)) :
  Forall P sep → Forall (Forall P) ls → Forall P (Array_join sep ls).
Proof.
  intros Hsep. induction 1 as [|l ls Hl Hls IH]; [constructor|].
  destruct ls as [|l' ls]; [done|].
  rewrite Array_join_cons by done. rewrite !Forall_app. by repeat split.
Qed.

Lemma filter_absent (x : Z) (l : list Z) : x ∉ l → filter (λ b, b = x) l = [].
Proof.
  induction l as [|b l IH]; intros Hx; [done|].
  apply not_elem_of_cons in Hx as [Hb Hl].
  rewrite filter_cons_False by congruence. by apply IH.
Qed.

(** Lines free of the separator, joined: one separator less than lines. *)
Lemma count_join (x : Z) (ls : list (list Z)) :
  Forall (λ l, x ∉ l) ls →
  length (filter (λ b, b = x) (Array_join [x] ls)) = pred (length ls).
Proof.
  induction 1 as [|l ls Hl Hls IH]; [done|].
  destruct ls as [|l' ls]; [simpl; by rewrite filter_absent|].
  rewrite Array_join_cons by done.
  rewrite !filter_app, !length_app, IH, filter_absent by done.
  rewrite filter_cons_True by done. simpl. lia.
Qed.

(** A split gives one piece more than the string has separators. *)
Lemma length_split_from (x : N) (s : jsstring) : ∀ cur,
  length (split_from [x] 0 cur s) = S (length (filter (λ c, c = x) s)).
Proof.
  induction s as [|c s IH]; intros cur; [done|].
  destruct (decide (c = x)) as [->|Hc].
  - rewrite split_from_sep, filter_cons_True by done. simpl. by rewrite IH.
  - rewrite split_from_other, filter_cons_False by done. apply IH.
Qed.

(** X13. [toBytes] returns for every page and never throws. Its bytes are
    the protocol byte of the animation (0 for an animation without one),
    the number of leading [_] and the delay, each modulo 256, a zero, and
    then, for the lines of the text after the leading [_], the bytes of
    the line with its first [~] escaped, with one newline byte between
    two lines. *)
Theorem toBytes_header_and_lines p :
  Page.toBytes p
  = Return
      ([to_uint8 (Int <$> Page._ANIMATE_ENCODING !! Page.animate_toString (Page.animate p));
        (Z.of_nat (length (take_while (λ c, (c =? 95)%N) (Page.text p))) mod 256)%Z;
        to_uint8 (Some (Page.delay p));
        0x00%Z]
       ++ Array_join [0x0A%Z]
            ((λ line,
                Buffer_from
                  ((λ c, Int <$> Page._TEXT_ENCODING !! [c])
                     <$> JS.String_replace (str "~") (str "\R") line))
               <$> String_split (str "_")
                     (drop_while (λ c, (c =? 95)%N) (Page.text p)))).
Proof. apply toBytes_layout. Qed.

(** X14. The bytes of [toBytes] make a well-formed frame for every page:
    at least four of them, each one a byte, a zero at index 3, and after
    the header exactly as many newline bytes as the text has [_] after
    its leading ones (no character is encoded as the newline byte). *)
Theorem toBytes_frame p :
  ∃ bytes, Page.toBytes p = Return bytes
           ∧ (4 ≤ length bytes)%nat
           ∧ Forall (λ b, (0 ≤ b < 256)%Z) bytes
           ∧ bytes !! 3%nat = Some 0x00%Z
           ∧ length (filter (λ b, b = 0x0A%Z) (drop 4 bytes))
             = length (filter (λ c, c = 95%N)
                         (drop_while (λ c, (c =? 95)%N) (Page.text p))).
Proof.
  eexists. split; [apply toBytes_layout|].
  change (str "_") with [95%N]. rewrite String_split_unit.
  split; [simpl; lia|]. split; [|split; [done|]].
  - apply Forall_app. split.
    + repeat (apply Forall_cons; split); try apply to_uint8_range;
        [apply Z.mod_pos_bound; lia | lia | apply Forall_nil_2].
    + apply Array_join_Forall; [apply Forall_cons; split; [lia|apply Forall_nil_2]|].
      apply Forall_fmap, Forall_true. intros line. apply line_bytes_range.
  - cbn [app]. change (drop 4 (?a :: ?b :: ?c :: ?d :: ?r)) with r.
    rewrite count_join.
    + by rewrite length_fmap, length_split_from.
    + apply Forall_fmap, Forall_true. intros line. apply line_bytes_no_newline.
Qed.

(** X15. A text made of [_] only, the empty text among them, is encoded
    as the four header bytes alone. *)
Theorem toBytes_only_newlines animate delay n :
  Page.toBytes (Page.new animate delay (replicate n 95%N))
  = Return [to_uint8 (Int <$> Page._ANIMATE_ENCODING !! Page.animate_toString animate);
            (Z.of_nat n mod 256)%Z;
            to_uint8 (Some delay);
            0x00%Z].
Proof.
  rewrite toBytes_layout. cbn [Page.animate Page.delay Page.text].
  assert (Forall (λ c, (c =? 95)%N = true) (replicate n 95%N)) as Hall.
  { apply Forall_replicate. reflexivity. }
  rewrite (take_while_all _ _ Hall), (proj2 (drop_while_all _ _) Hall), length_replicate.
  by vm_compute Array_join.
Qed.

End byte_codec_more.

(** ** More on decoding a page *)

Section fromBytes_more.

(** With a known animation byte and a zero at index 3, [fromBytes]
    returns, whatever follows the header. *)
Lemma fromBytes_header b0 animate offset delay rest :
  Page._ANIMATE_DECODING !! b0 = Some animate →
  ∃ body, Page.fromBytes (b0 :: offset :: delay :: 0x00%Z :: rest)
          = Return (Page.new (Page.Str animate) (Int delay)
                      (replicate (Z.to_nat offset) 95%N ++ body)).
Proof.
  intros Hanimate. unfold Page.fromBytes. rewrite Hanimate. cbn [negb Z.eqb].
  destruct (foldl _ _ _) as [lines line].
  unfold Page._NEWLINE_CHAR at 1. change (str "_") with [95%N] at 1.
  rewrite replicate_join. by eexists.
Qed.

(** X16. [fromBytes] returns exactly on the inputs of at least four bytes
    whose first byte is one of the three animation bytes and whose fourth
    byte is zero. The page then has the letter of the first byte as its
    animation, the third byte as its delay, and a text that starts with as
    many [_] as the second byte says. *)
Theorem fromBytes_returns_iff (bytes : list Z) :
  (returns (Page.fromBytes bytes) = true
   ↔ ∃ b0 offset delay rest,
       bytes = b0 :: offset :: delay :: 0x00%Z :: rest
       ∧ (b0 = 0x00%Z ∨ b0 = 0x1D%Z ∨ b0 = 0x2F%Z))
  ∧ (∀ p, Page.fromBytes bytes = Return p →
       ∃ b0 offset delay rest body,
         bytes = b0 :: offset :: delay :: 0x00%Z :: rest
         ∧ Page._ANIMATE_DECODING !! b0 = Some (Page.animate_toString (Page.animate p))
         ∧ Page.delay p = Int delay
         ∧ Page.text p = replicate (Z.to_nat offset) 95%N ++ body).
Proof.
  assert (∀ p, Page.fromBytes bytes = Return p →
            ∃ b0 offset delay rest body,
              bytes = b0 :: offset :: delay :: 0x00%Z :: rest
              ∧ Page._ANIMATE_DECODING !! b0 = Some (Page.animate_toString (Page.animate p))
              ∧ Page.delay p = Int delay
              ∧ Page.text p = replicate (Z.to_nat offset) 95%N ++ body) as Hfields.
  { intros p Hp.
    destruct bytes as [|b0 [|offset [|delay [|b3 rest]]]]; try discriminate Hp.
    destruct (Page._ANIMATE_DECODING !! b0) as [animate|] eqn:Hanimate.
    - destruct (decide (b3 = 0x00%Z)) as [->|Hb3].
      + destruct (fromBytes_header b0 animate offset delay rest Hanimate) as [body Hbody].
        rewrite Hbody in Hp. injection Hp as <-.
        by exists b0, offset, delay, rest, body.
      + unfold Page.fromBytes in Hp. rewrite Hanimate in Hp.
        apply Z.eqb_neq in Hb3. rewrite Hb3 in Hp. discriminate Hp.
    - unfold Page.fromBytes in Hp. rewrite Hanimate in Hp. discriminate Hp. }
  split; [|exact Hfields].
  split.
  - destruct (Page.fromBytes bytes) as [p|e] eqn:Hp; [|discriminate].
    intros _. destruct (Hfields p eq_refl) as (b0 & offset & delay & rest & _ & -> & Hb0 & _).
    exists b0, offset, delay, rest. split; [done|].
    rewrite ANIMATE_DECODING_lookup in Hb0.
    destruct (decide (b0 = 0x2F%Z)) as [->|H1]; [by right; right|].
    rewrite (bool_decide_eq_false_2 _ H1) in Hb0.
    destruct (decide (b0 = 0x1D%Z)) as [->|H2]; [by right; left|].
    rewrite (bool_decide_eq_false_2 _ H2) in Hb0.
    destruct (decide (b0 = 0x00%Z)) as [->|H3]; [by left|].
    rewrite (bool_decide_eq_false_2 _ H3) in Hb0. discriminate Hb0.
  - intros (b0 & offset & delay & rest & -> & Hb0).
    assert (∃ animate, Page._ANIMATE_DECODING !! b0 = Some animate) as [animate Hanimate].
    { destruct Hb0 as [-> | [-> | ->]]; eexists; by vm_compute. }
    destruct (fromBytes_header b0 animate offset delay rest Hanimate) as [body ->].
    reflexivity.
Qed.

(** Four bytes or more never give the error of a truncated frame. *)
Lemma fromBytes_not_truncated b0 offset delay b3 rest :
  Page.fromBytes (b0 :: offset :: delay :: b3 :: rest)
  ≠ Throw (RangeError (str "Not enough bytes for a Page")).
Proof.
  unfold Page.fromBytes. destruct (Page._ANIMATE_DECODING !! b0) as [animate|].
  - destruct (negb (b3 =? 0)%Z); [discriminate|].
    destruct (foldl _ _ _) as [lines line]. discriminate.
  - cbn [toString16 mbind completion_bind]. intros [=].
Qed.

Lemma fromBytes_body_newlines b0 offset delay b3 rest n :
  Page.fromBytes (b0 :: offset :: delay :: b3 :: rest ++ replicate n Page._NEWLINE_BYTESEQ)
  = Page.fromBytes (b0 :: offset :: delay :: b3 :: rest).
Proof.
  assert (reverse (drop_while (λ b, (b =? Page._NEWLINE_BYTESEQ)%Z)
                     (reverse (rest ++ replicate n Page._NEWLINE_BYTESEQ)))
          = reverse (drop_while (λ b, (b =? Page._NEWLINE_BYTESEQ)%Z) (reverse rest)))
    as Htrim.
  { f_equal. rewrite reverse_app, reverse_replicate.
    induction n as [|n IH]; [done|]. simpl. by rewrite IH. }
  unfold Page.fromBytes. by rewrite Htrim.
Qed.

(** X17. Newline bytes at the end of the input are ignored once the four
    header bytes are there: [fromBytes] then gives the same page, or the
    same error, with and without them. They are not ignored where they
    complete a header: an input of fewer than four bytes is a truncated
    frame, and with newline bytes that bring it to four bytes or more it
    is not. *)
Theorem fromBytes_trailing_newlines (bytes : list Z) (n : nat) :
  Page.fromBytes (bytes ++ replicate n Page._NEWLINE_BYTESEQ) = Page.fromBytes bytes
  ↔ (4 ≤ length bytes ∨ length bytes + n < 4)%nat.
Proof.
  split.
  - intros Heq.
    destruct (decide (4 ≤ length bytes)%nat) as [|Hshort]; [by left|]. right.
    destruct (decide (length bytes + n < 4)%nat) as [|Hlong]; [done|]. exfalso.
    destruct (fromBytes_truncated bytes) as (e & He & ->); [lia|].
    rewrite He in Heq.
    assert (4 ≤ length (bytes ++ replicate n Page._NEWLINE_BYTESEQ))%nat as Hlen
      by (rewrite length_app, length_replicate; lia).
    destruct (bytes ++ replicate n Page._NEWLINE_BYTESEQ)
      as [|b0 [|b1 [|b2 [|b3 rest]]]]; [simpl in Hlen; lia..|].
    exact (fromBytes_not_truncated _ _ _ _ _ Heq).
  - intros [Hlen | Hlen].
    + destruct bytes as [|b0 [|b1 [|b2 [|b3 rest]]]]; [simpl in Hlen; lia..|].
      apply fromBytes_body_newlines.
    + destruct (fromBytes_truncated bytes) as (e & He & ->); [lia|].
      destruct (fromBytes_truncated (bytes ++ replicate n Page._NEWLINE_BYTESEQ))
        as (e' & He' & ->); [rewrite length_app, length_replicate; lia|].
      by rewrite He, He'.
Qed.

(** X18. What [toBytes] returns, [fromBytes] decodes without an error,
    for every page. The decoded page has the delay of the page modulo
    256 and its animation letter, or N where the animation has no
    protocol byte. *)
Theorem toBytes_then_fromBytes p :
  ∃ q, (Page.toBytes p ≫= Page.fromBytes) = Return q
       ∧ Page.delay q = Int (to_uint8 (Some (Page.delay p)))
       ∧ Page.animate q
         = Page.Str match Page._ANIMATE_ENCODING !! Page.animate_toString (Page.animate p) with
                    | Some _ => Page.animate_toString (Page.animate p)
                    | None => str "N"
                    end.
Proof.
  rewrite toBytes_layout. cbn [mbind completion_bind app].
  set (s := Page.animate_toString (Page.animate p)).
  assert (Page._ANIMATE_DECODING !! to_uint8 (Int <$> Page._ANIMATE_ENCODING !! s)
          = Some match Page._ANIMATE_ENCODING !! s with
                 | Some _ => s
                 | None => str "N"
                 end) as Hdec.
  { destruct (Page._ANIMATE_ENCODING !! s) as [b|] eqn:Hs; [|by vm_compute].
    apply ANIMATE_ENCODING_lookup in Hs as [[-> ->] | [[-> ->] | [-> ->]]]; by vm_compute. }
  destruct (fromBytes_header _ _
              (Z.of_nat (length (take_while (λ c, (c =? 95)%N) (Page.text p))) mod 256)
              (to_uint8 (Some (Page.delay p)))
              (Array_join [0x0A%Z]
                 (line_bytes <$> String_split (str "_")
                                   (drop_while (λ c, (c =? 95)%N) (Page.text p))))
              Hdec) as [body ->].
  eexists. split; [reflexivity|]. by split.
Qed.

(** The bytes of a text decode to the text, and none is the newline byte. *)
Lemma decodeText_encodes text bytes :
  Spec.encodes text bytes → Page.decodeText bytes = text ∧ 0x0A%Z ∉ bytes.
Proof.
  unfold Spec.encodes. rewrite decodeText_units.
  induction 1 as [|c b text bytes Hcb _ [IH1 IH2]]; [split; [done|apply not_elem_of_nil]|].
  destruct (TEXT_ENCODING_entry _ _ Hcb) as (_ & Hdec & _ & Hnl).
  rewrite fmap_cons, Hdec, IH1. split; [done|].
  apply not_elem_of_cons. split; [|done]. intros Heq. by apply Hnl.
Qed.

Lemma match_at_spaces input n :
  match_at input Page.trailing_spaces_re (replicate (S n) 32%N)
  = Some {| index := length input - S n;
            matched := replicate (S n) 32%N;
            groups := ∅ |}.
Proof.
  unfold match_at, Page.trailing_spaces_re. rewrite run_Seq, run_Plus.
  change (replicate (S n) 32%N) with (32%N :: replicate n 32%N).
  cbn [N.eqb Pos.eqb]. rewrite star_greedy by done.
  assert (drop_while (λ c, (c =? 32)%N) (replicate n 32%N) = []) as ->.
  { apply drop_while_all, Forall_replicate. reflexivity. }
  rewrite run_Eol. cbn [length]. rewrite length_replicate, Nat.sub_0_r.
  do 2 f_equal. apply take_ge. cbn [length]. rewrite length_replicate. lia.
Qed.

(** [/ +$/] finds the run of spaces that ends a string. *)
Lemma search_trailing_found input n : ∀ t,
  last t ≠ Some 32%N →
  search input Page.trailing_spaces_re (t ++ replicate (S n) 32%N)
  = Some {| index := length input - S n;
            matched := replicate (S n) 32%N;
            groups := ∅ |}.
Proof.
  induction t as [|c t IH]; intros Hlast.
  - rewrite search_unfold. cbn [app]. by rewrite match_at_spaces.
  - rewrite search_unfold.
    change ((c :: t) ++ replicate (S n) 32%N) with (c :: (t ++ replicate (S n) 32%N)).
    assert (match_at input Page.trailing_spaces_re (c :: (t ++ replicate (S n) 32%N)) = None)
      as ->.
    { unfold match_at, Page.trailing_spaces_re. rewrite run_Seq, run_Plus.
      destruct (c =? 32)%N eqn:Hc; [|done].
      apply N.eqb_eq in Hc. subst c.
      rewrite star_greedy by done. rewrite run_Eol.
      destruct (drop_while (λ c, (c =? 32)%N) (t ++ replicate (S n) 32%N))
        as [|? ?] eqn:Hdrop; [|done].
      exfalso. apply drop_while_all, Forall_app in Hdrop as [Ht _].
      destruct t as [|c t _] using rev_ind; [by apply Hlast|].
      apply Hlast. rewrite app_comm_cons, last_snoc.
      apply Forall_app in Ht as [_ Hc]. inversion Hc as [|? ? Hc32 _]; subst.
      apply N.eqb_eq in Hc32. by subst c. }
    apply IH. destruct t as [|c' t]; [done|]. by rewrite last_cons_cons in Hlast.
Qed.

Lemma replace_trailing_found t n rep :
  last t ≠ Some 32%N →
  Symbol_replace (t ++ replicate (S n) 32%N) Page.trailing_spaces_re rep = t ++ rep.
Proof.
  intros Hlast. unfold Symbol_replace, Symbol_match.
  rewrite search_trailing_found by done. cbn [index matched].
  rewrite length_app, !length_replicate.
  replace (length t + S n - S n)%nat with (length t) by lia.
  rewrite take_app_length, drop_ge; [by rewrite app_nil_r|].
  rewrite length_app, length_replicate. lia.
Qed.

(** X19. Spaces at the end of a line are not stripped but replaced by the
    text "undefined": on a one-line body made of the bytes of a text
    that does not end with a space, followed by one or more space bytes,
    [fromBytes] returns that text followed by "undefined" (on which the
    first escape, if any, then becomes [~]). *)
Theorem fromBytes_trailing_spaces b0 animate offset delay text bytes n :
  Page._ANIMATE_DECODING !! b0 = Some animate →
  Spec.encodes text bytes →
  last text ≠ Some 32%N →
  Page.fromBytes (b0 :: offset :: delay :: 0x00%Z :: bytes ++ replicate (S n) 0x20%Z)
  = Return (Page.new (Page.Str animate) (Int delay)
              (replicate (Z.to_nat offset) 95%N
               ++ JS.String_replace (str "\R") (str "~") (text ++ str "undefined"))).
Proof.
  intros Hanimate Hbytes Hlast.
  destruct (decodeText_encodes _ _ Hbytes) as [Hdec Hnl].
  pose proof (fromBytes_layout b0 animate offset delay []
                (bytes ++ replicate (S n) 0x20%Z) Hanimate) as Hlayout.
  cbn [app Array_join fmap list_fmap] in Hlayout. rewrite Hlayout.
  - do 2 f_equal. unfold line_text.
    clear Hlayout.
    assert (Page.decodeText (bytes ++ replicate (S n) 0x20%Z)
            = text ++ replicate (S n) 32%N) as ->.
    { rewrite decodeText_units, fmap_app, <- decodeText_units, Hdec.
      rewrite fmap_replicate.
      assert (match Page._TEXT_DECODING !! 0x20%Z with
              | Some [u] => u
              | _ => 0xFFFD%N
              end = 32%N) as Hspace by (by vm_compute).
      by rewrite Hspace. }
    by rewrite replace_trailing_found.
  - apply Forall_cons. split; [|apply Forall_nil_2].
    rewrite elem_of_app. intros [Hin | Hin]; [by apply Hnl|].
    apply elem_of_replicate in Hin as [Hin _]. discriminate Hin.
  - done.
Qed.

Lemma fromBytes_trailing_spaces_witness :
  Page._ANIMATE_DECODING !! 0x1D%Z = Some (str "V")
  ∧ Spec.encodes (str "hi") [0x68%Z; 0x69%Z]
  ∧ last (str "hi") ≠ Some 32%N
  ∧ Page.fromBytes ([0x1D%Z; 0x02%Z; 0x14%Z; 0x00%Z; 0x68%Z; 0x69%Z] ++ replicate 2 0x20%Z)
    = Return (Page.new (Page.Str (str "V")) (Int 0x14) (str "__hiundefined")).
Proof.
  assert (Page._ANIMATE_DECODING !! 0x1D%Z = Some (str "V")) as Ha by (by vm_compute).
  assert (Spec.encodes (str "hi") [0x68%Z; 0x69%Z]) as Hb.
  { apply Forall2_cons. split; [by vm_compute|].
    apply Forall2_cons. split; [by vm_compute|]. apply Forall2_nil_2. }
  assert (last (str "hi") ≠ Some 32%N) as Hc by (intros H; discriminate H).
  split; [exact Ha|]. split; [exact Hb|]. split; [exact Hc|].
  exact (fromBytes_trailing_spaces 0x1D%Z (str "V") 0x02%Z 0x14%Z (str "hi")
           [0x68%Z; 0x69%Z] 1 Ha Hb Hc).
Defined.

(** X20. A frame of the header alone decodes to a text of [_] only, as
    many as the second byte says: none for a zero. *)
Theorem fromBytes_header_only offset delay :
  Page.fromBytes [0x00%Z; offset; delay; 0x00%Z]
  = Return (Page.new (Page.Str (str "N")) (Int delay) (replicate (Z.to_nat offset) 95%N))
  ∧ Page.fromBytes [0x1D%Z; offset; delay; 0x00%Z]
    = Return (Page.new (Page.Str (str "V")) (Int delay) (replicate (Z.to_nat offset) 95%N))
  ∧ Page.fromBytes [0x2F%Z; offset; delay; 0x00%Z]
    = Return (Page.new (Page.Str (str "H")) (Int delay) (replicate (Z.to_nat offset) 95%N)).
Proof.
  assert (∀ b0 animate, Page._ANIMATE_DECODING !! b0 = Some animate →
            Page.fromBytes [b0; offset; delay; 0x00%Z]
            = Return (Page.new (Page.Str animate) (Int delay)
                        (replicate (Z.to_nat offset) 95%N))) as Hany.
  { intros b0 animate Hanimate.
    pose proof (fromBytes_layout b0 animate offset delay [] [] Hanimate) as Hlayout.
    cbn [app Array_join fmap list_fmap] in Hlayout. rewrite Hlayout.
    - do 2 f_equal. change (line_text []) with (@nil N). apply app_nil_r.
    - apply Forall_cons. split; [apply not_elem_of_nil|apply Forall_nil_2].
    - done. }
  split; [|split]; apply Hany; by vm_compute.
Qed.

End fromBytes_more.

Section toBytes_as_specified_example.

(** A line with at most one [~], by counting. *)
Lemma one_marker_by_count line :
  (length (filter (λ c, c = 126%N) line) ≤ 1)%nat →
  ∀ pre post, line = pre ++ 126%N :: post → 126%N ∉ post.
Proof.
  intros Hcount pre post -> Hin.
  rewrite filter_app, filter_cons_True, length_app in Hcount by done.
  assert (126%N ∈ filter (λ c, c = 126%N) post) as Hin' by (by apply list_elem_of_filter).
  destruct (filter (λ c, c = 126%N) post); [by apply elem_of_nil in Hin'|].
  simpl in Hcount. lia.
Qed.

Lemma toBytes_as_specified_witness :
  Spec.valid_Page (Page.new (Page.Obj PageAnimate.HSCROLL) (Int 0) (str "__A~1_B"))
  ∧ ∃ b0 z body,
      Page._ANIMATE_ENCODING !! str "H" = Some b0
      ∧ Int 0 = Int z
      ∧ Forall2 (λ line bytes, Spec.encodes (Spec.escape_every_marker line) bytes)
          [str "A~1"; str "B"] body
      ∧ Page.toBytes (Page.new (Page.Obj PageAnimate.HSCROLL) (Int 0) (str "__A~1_B"))
        = Return ([b0; 2%Z; z; 0x00%Z] ++ Array_join [0x0A%Z] body).
Proof.
  assert (Spec.valid_Page (Page.new (Page.Obj PageAnimate.HSCROLL) (Int 0) (str "__A~1_B")))
    as Hvalid.
  { split; [right; right; reflexivity|].
    split; [exists 0%Z; split; [reflexivity|lia]|].
    apply Forall_forall. intros c Hc. apply list_elem_of_In in Hc.
    vm_compute in Hc.
    repeat (destruct Hc as [<- | Hc];
            [first [right; left; reflexivity | right; right; reflexivity
                   | left; eexists; vm_compute; reflexivity]|]).
    destruct Hc. }
  assert (length (take_while (λ c, (c =? 95)%N) (str "__A~1_B")) ≤ 255)%nat as Hoffset
    by (vm_compute; lia).
  assert (Forall (λ line, ∀ pre post, line = pre ++ 126%N :: post → 126%N ∉ post)
            (String_split (str "_") (drop_while (λ c, (c =? 95)%N) (str "__A~1_B"))))
    as Hone.
  { change (Forall (λ line, ∀ pre post, line = pre ++ 126%N :: post → 126%N ∉ post)
              [str "A~1"; str "B"]).
    apply Forall_cons. split; [apply one_marker_by_count; vm_compute; lia|].
    apply Forall_cons. split; [apply one_marker_by_count; vm_compute; lia|].
    apply Forall_nil_2. }
  split; [exact Hvalid|].
  exact (toBytes_as_specified _ Hvalid Hoffset Hone).
Defined.

End toBytes_as_specified_example.
